(** * A shallow embedding of parts of unitdb (Go) and their properties.

    Covered: the time-mark ledger of the memdb package, the segmented WAL
    file allocator, the WAL group header codec, the WAL reader, the
    recovery replay of the memdb, the read path of the index, the sequence
    assignment of [setEntry] and the key/value cache [DB.Set]/[DB.Get].

    Integers are [Z] with the Go width written out ([wrap64], [u32], ...);
    byte slices are [list Z] whose elements are in [0,256); Go maps are
    stdpp [gmap]s. *)

From Stdlib Require Import ZArith Lia List.
From stdpp Require Import base gmap list.
Import ListNotations.
Open Scope Z_scope.

(* ------------------------------------------------------------------ *)
(** ** Machine integers *)

Definition two64 : Z := 2 ^ 64.
Definition two63 : Z := 2 ^ 63.
Definition two32 : Z := 2 ^ 32.

(** Go [int64] arithmetic wraps to the signed 64-bit range. *)
Definition wrap64 (x : Z) : Z :=
  let u := x mod two64 in if u >=? two63 then u - two64 else u.

(** Go [uint32] arithmetic and conversion wrap modulo 2^32. *)
Definition u32 (x : Z) : Z := x mod two32.

(** Go [uint64] arithmetic and conversion wrap modulo 2^64. *)
Definition u64 (x : Z) : Z := x mod two64.

(* ------------------------------------------------------------------ *)
(** ** encoding/binary.LittleEndian *)

(** [PutUintN]: byte i is [byte(v >> (8*i))]. *)
Fixpoint put_le (n : nat) (v : Z) : list Z :=
  match n with
  | O => []
  | S n' => Z.land v 255 :: put_le n' (Z.shiftr v 8)
  end.

(** [UintN]: [uint(b[0]) | uint(b[1])<<8 | ...]. *)
Fixpoint get_le (bs : list Z) : Z :=
  match bs with
  | [] => 0
  | b :: bs' => Z.lor b (Z.shiftl (get_le bs') 8)
  end.

(** The Go slice expression [data[a:b]] on a long enough slice. *)
Definition slice (a b : nat) (l : list Z) : list Z := firstn (b - a) (skipn a l).

(* ------------------------------------------------------------------ *)
(** ** wal/header.go: the 28-byte group header [_LogInfo] *)

Module WalHeader.

Definition logHeaderSize : nat := 28.

(** [headerSize = uint32(47)], the size of the WAL file header. *)
Definition headerSize : Z := 47.

Record LogInfo := mkLogInfo {
  version : Z;     (* uint16 *)
  status : Z;      (* LogStatus, a uint16 *)
  timeID : Z;      (* int64 *)
  entryCount : Z;  (* uint32 *)
  size : Z;        (* uint32 *)
  offset : Z       (* int64 *)
}.

(** The ranges of the Go field types. *)
Definition wf_LogInfo (l : LogInfo) : Prop :=
  0 <= version l < 2 ^ 16 /\ 0 <= status l < 2 ^ 16 /\
  - two63 <= timeID l < two63 /\ 0 <= entryCount l < two32 /\
  0 <= size l < two32 /\ - two63 <= offset l < two63.

(** [MarshalBinary]: the six [Put] calls fill consecutive ranges of a
    fresh 28-byte buffer; [uint64(x)] of an [int64] is [u64 x]. *)
Definition MarshalBinary (l : LogInfo) : list Z :=
  put_le 2 (version l) ++ put_le 2 (status l) ++ put_le 8 (u64 (timeID l)) ++
  put_le 4 (entryCount l) ++ put_le 4 (size l) ++ put_le 8 (u64 (offset l)).

(** [int64(u)] of a [uint64]. *)
Definition int64_of_u64 (u : Z) : Z := if u >=? two63 then u - two64 else u.

(** [UnmarshalBinary]: Go indexes [data[:28]] and panics on a shorter
    slice; that is [None] here. *)
Definition UnmarshalBinary (data : list Z) : option LogInfo :=
  if (length data <? logHeaderSize)%nat then None
  else Some (mkLogInfo
    (get_le (slice 0 2 data))
    (get_le (slice 2 4 data))
    (int64_of_u64 (get_le (slice 4 12 data)))
    (get_le (slice 12 16 data))
    (get_le (slice 16 20 data))
    (int64_of_u64 (get_le (slice 20 28 data)))).

End WalHeader.

(* ------------------------------------------------------------------ *)
(** ** Outcomes of fallible Go code *)

(** The error values of the code that the claims touch. *)
Inductive error :=
  | errMsgIDDeleted
  | errMsgIdDoesNotExist
  | errBadRequest
  | errLogData          (* errors.New("logData error") of Reader.Next *)
  | errIO               (* an error returned by the OS or the buffer pool *)
  | errCacheNotFound.   (* errors.New("cache for entry seq not found") *)

(** A Go call returns a value, returns a non-nil error, or panics. *)
Inductive outcome (A : Type) :=
  | Ret (a : A)
  | Fail (e : error)
  | Panic.
Arguments Ret {A} a.
Arguments Fail {A} e.
Arguments Panic {A}.

(* ------------------------------------------------------------------ *)
(** ** memdb/timemark.go: the time-mark ledger *)

Module TimeMark.

Record TimeRecord := mkTimeRecord {
  refs : Z;        (* int *)
  lastUnref : Z    (* _TimeID, an int64 *)
}.

Record TimeMark := mkTimeMark {
  durations : Z;                          (* time.Duration, in ns *)
  timeRecord : TimeRecord;
  records : gmap Z TimeRecord;            (* map[_TimeID]_TimeRecord *)
  releasedRecords : gmap Z TimeRecord
}.

Definition set_records (tm : TimeMark) (m : gmap Z TimeRecord) : TimeMark :=
  mkTimeMark (durations tm) (timeRecord tm) m (releasedRecords tm).
Definition set_releasedRecords (tm : TimeMark) (m : gmap Z TimeRecord) : TimeMark :=
  mkTimeMark (durations tm) (timeRecord tm) (records tm) m.

(** [newTimeMark]; [now] is [time.Now().UTC().UnixNano()]. *)
Definition newTimeMark (expiryDuration now : Z) : TimeMark :=
  mkTimeMark expiryDuration (mkTimeRecord 0 now) ∅ ∅.

(** [time.Time.Nanosecond()]: the nanosecond offset within the second of
    the instant whose Unix time in nanoseconds is [unixNano]. *)
Definition nanosecond (unixNano : Z) : Z := unixNano mod 1000000000.

(** [_TimeRecord.isExpired]; [now] is the instant read by [time.Now()]
    (Unix nanoseconds), of which the code takes [.Nanosecond()]. *)
Definition isExpired (r : TimeRecord) (expDur now : Z) : bool :=
  (0 <? lastUnref r) && (wrap64 (lastUnref r + expDur) <=? nanosecond now).

(** [_TimeRecord.isReleased]. *)
Definition record_isReleased (r : TimeRecord) (last : Z) : bool :=
  (0 <? lastUnref r) && (lastUnref r <? last).

(** [newTimeRecord]; [now] is [time.Now().UTC().UnixNano()]. *)
Definition newTimeRecord (tm : TimeMark) (now : Z) : TimeMark :=
  mkTimeMark (durations tm) (mkTimeRecord 0 now) (records tm) (releasedRecords tm).

(** [add]: the incremented copy [r] is a local value that is never stored;
    the map entry is then overwritten with a fresh record of refcount 1. *)
Definition add (tm : TimeMark) (timeID : Z) : TimeMark :=
  let _r := match records tm !! timeID with
            | Some r => Some (mkTimeRecord (refs r + 1) (lastUnref r))
            | None => None
            end in
  set_records tm (<[timeID := mkTimeRecord 1 0]> (records tm)).

(** [release]. *)
Definition release (tm : TimeMark) (timeID : Z) : TimeMark :=
  match records tm !! timeID with
  | None => tm
  | Some timeMark =>
      let timeMark := mkTimeRecord (refs timeMark - 1) (lastUnref timeMark) in
      if 0 <? refs timeMark then set_records tm (<[timeID := timeMark]> (records tm))
      else
        let timeMark := mkTimeRecord (refs timeMark) (lastUnref (timeRecord tm)) in
        mkTimeMark (durations tm) (timeRecord tm) (delete timeID (records tm))
                   (<[timeID := timeMark]> (releasedRecords tm))
  end.

(** [isReleased]. *)
Definition isReleased (tm : TimeMark) (timeID : Z) : bool :=
  match releasedRecords tm !! timeID with
  | Some r =>
      if refs r =? -1 then false   (* time ID is aborted *)
      else record_isReleased r (lastUnref (timeRecord tm))
  | None => false
  end.

(** [abort]. *)
Definition abort (tm : TimeMark) (timeID : Z) : TimeMark :=
  mkTimeMark (durations tm) (timeRecord tm) (delete timeID (records tm))
             (<[timeID := mkTimeRecord (-1) (lastUnref (timeRecord tm))]> (releasedRecords tm)).

(** [startExpirer]: the range loop visits every released record once and
    deletes those that [isExpired]; [clock k] is the instant [time.Now()]
    returns inside [isExpired] when record [k] is visited. *)
Definition startExpirer (tm : TimeMark) (clock : Z -> Z) : TimeMark :=
  set_releasedRecords tm
    (filter (fun kr : Z * TimeRecord => isExpired kr.2 (durations tm) (clock kr.1) = false)
            (releasedRecords tm)).

(** The operations of the ledger, as the memdb issues them. *)
Inductive op :=
  | OpAdd (t : Z)
  | OpRelease (t : Z)
  | OpIsReleased (t : Z)
  | OpExpire (clock : Z -> Z)
  | OpNewTimeRecord (now : Z)
  | OpAbort (t : Z).

Definition step (tm : TimeMark) (o : op) : TimeMark :=
  match o with
  | OpAdd t => add tm t
  | OpRelease t => release tm t
  | OpIsReleased _ => tm
  | OpExpire clock => startExpirer tm clock
  | OpNewTimeRecord now => newTimeRecord tm now
  | OpAbort t => abort tm t
  end.

Definition run (tm : TimeMark) (os : list op) : TimeMark := fold_left step os tm.

(** Whether [t] is released in [tm], as a proposition. *)
Definition released_in (tm : TimeMark) (t : Z) : Prop :=
  exists r, releasedRecords tm !! t = Some r /\ refs r <> -1 /\
            0 < lastUnref r < lastUnref (timeRecord tm).

(** The side conditions under which a step keeps [t] released. *)
Definition keeps_released (tm : TimeMark) (t : Z) (o : op) : Prop :=
  match o with
  | OpNewTimeRecord now => lastUnref (timeRecord tm) <= now
  | OpAbort u => u <> t
  | OpRelease u =>
      u = t -> match records tm !! t with Some r => 1 < refs r | None => True end
  | _ => True
  end.

(** [_TimeMark.isAborted]. *)
Definition isAborted (tm : TimeMark) (timeID : Z) : bool :=
  match releasedRecords tm !! timeID with
  | Some r => refs r =? -1
  | None => false
  end.

End TimeMark.

(* ------------------------------------------------------------------ *)
(** ** wal file (src/unnamed/part_001): segments and allocation *)

Module WalFile.

Record Segment := mkSegment { sg_offset : Z (* int64 *); sg_size : Z (* uint32 *) }.

(** [_Segments] is [[3]_Segment]. *)
Record Segments := mkSegments { seg0 : Segment; seg1 : Segment; seg2 : Segment }.

(** The [os.File] handle is not modelled; [truncate_ok n] says whether
    [f.Truncate(n)] succeeds. *)
Record File := mkFile { segments : Segments; fsize : Z (* int64 *); targetSize : Z (* int64 *) }.

Definition currSize (sg : Segments) : Z := sg_size (seg1 sg).

Definition freeSize (sg : Segments) (offset : Z) : Z :=
  if offset =? sg_offset (seg0 sg) then sg_size (seg0 sg)
  else if offset =? sg_offset (seg1 sg) then sg_size (seg1 sg)
  else if offset =? sg_offset (seg2 sg) then sg_size (seg2 sg)
  else 0.

(** [_Segments.allocate]. *)
Definition seg_allocate (sg : Segments) (size : Z) : Z * Segments :=
  let off := sg_offset (seg1 sg) in
  let s1 := mkSegment (wrap64 (sg_offset (seg1 sg) + size)) (u32 (sg_size (seg1 sg) - size)) in
  (off, mkSegments (seg0 sg) s1 (seg2 sg)).

(** [_File.allocate]. *)
Definition allocate (truncate_ok : Z -> bool) (f : File) (size : Z) : outcome (Z * File) :=
  if size =? 0 then Panic   (* "unable to allocate zero bytes" *)
  else if (targetSize f >? wrap64 (fsize f + size)) || (currSize (segments f) <? size) then
    let off := fsize f in
    if truncate_ok (wrap64 (off + size)) then
      Ret (off, mkFile (segments f) (wrap64 (fsize f + size)) (targetSize f))
    else Fail errIO
  else
    let '(off, sg) := seg_allocate (segments f) size in
    Ret (off, mkFile sg (fsize f) (targetSize f)).

(** [newSegments]: segments 0 and 1 at [headerSize], all empty. *)
Definition newSegments : Segments :=
  mkSegments (mkSegment WalHeader.headerSize 0) (mkSegment WalHeader.headerSize 0) (mkSegment 0 0).

(** [_Segments.free]: merge the freed range into segment 0 or segment 1
    when it starts where that segment ends. *)
Definition seg_free (sg : Segments) (offset size : Z) : bool * Segments :=
  if wrap64 (sg_offset (seg0 sg) + sg_size (seg0 sg)) =? offset then
    (true, mkSegments (mkSegment (sg_offset (seg0 sg)) (u32 (sg_size (seg0 sg) + size)))
                      (seg1 sg) (seg2 sg))
  else if wrap64 (sg_offset (seg1 sg) + sg_size (seg1 sg)) =? offset then
    (true, mkSegments (seg0 sg)
                      (mkSegment (sg_offset (seg1 sg)) (u32 (sg_size (seg1 sg) + size)))
                      (seg2 sg))
  else (false, sg).

(** [_Segments.swap]; its error is always nil (the [fmt.Println] is not
    modelled). *)
Definition swap (sg : Segments) (targetSize : Z) : Segments :=
  let sg :=
    if negb (sg_size (seg1 sg) =? 0) &&
       (wrap64 (sg_offset (seg1 sg) + sg_size (seg1 sg)) =? sg_offset (seg2 sg))
    then mkSegments (seg0 sg)
                    (mkSegment (sg_offset (seg1 sg)) (u32 (sg_size (seg1 sg) + sg_size (seg2 sg))))
                    (mkSegment (sg_offset (seg2 sg)) 0)
    else sg in
  if targetSize <? sg_size (seg0 sg) then
    mkSegments (mkSegment (sg_offset (seg0 sg)) 0) (seg0 sg) (seg1 sg)
  else sg.

(** The free space the three segments describe. *)
Definition free_total (sg : Segments) : Z :=
  sg_size (seg0 sg) + sg_size (seg1 sg) + sg_size (seg2 sg).

(** Segment sizes are [uint32]s. *)
Definition wf_Segments (sg : Segments) : Prop :=
  0 <= sg_size (seg0 sg) < two32 /\ 0 <= sg_size (seg1 sg) < two32 /\
  0 <= sg_size (seg2 sg) < two32.

End WalFile.

(* ------------------------------------------------------------------ *)
(** ** wal/header.go: the WAL file header [_Header] *)

Module WalFileHeader.
Import WalHeader WalFile.

(** [signature] is a [[7]byte]; the trailing [_ [2]byte] is not encoded. *)
Record Header := mkHeader { signature : list Z; hversion : Z (* uint32 *); hsegments : Segments }.

(** The package's [signature], ['u' 'n' 'i' 't' 'd' 'b' '\xfe']. *)
Definition signature0 : list Z := [117; 110; 105; 116; 100; 98; 254].

(** [_Header.MarshalBinary]. *)
Definition Header_MarshalBinary (h : Header) : list Z :=
  let sg := hsegments h in
  signature h ++ put_le 4 (hversion h) ++
  put_le 4 (sg_size (seg0 sg)) ++ put_le 8 (u64 (sg_offset (seg0 sg))) ++
  put_le 4 (sg_size (seg1 sg)) ++ put_le 8 (u64 (sg_offset (seg1 sg))) ++
  put_le 4 (sg_size (seg2 sg)) ++ put_le 8 (u64 (sg_offset (seg2 sg))).

(** [_Header.UnmarshalBinary]; [None] is the panic of a slice expression
    on fewer than 47 bytes. *)
Definition Header_UnmarshalBinary (data : list Z) : option Header :=
  if (length data <? 47)%nat then None
  else Some (mkHeader (slice 0 7 data) (get_le (slice 7 11 data))
              (mkSegments
                 (mkSegment (int64_of_u64 (get_le (slice 15 23 data))) (get_le (slice 11 15 data)))
                 (mkSegment (int64_of_u64 (get_le (slice 27 35 data))) (get_le (slice 23 27 data)))
                 (mkSegment (int64_of_u64 (get_le (slice 39 47 data))) (get_le (slice 35 39 data))))).

(** The ranges of the fields' Go types. *)
Definition wf_Header (h : Header) : Prop :=
  length (signature h) = 7%nat /\ Forall (fun b => 0 <= b < 256) (signature h) /\
  0 <= hversion h < two32 /\
  wf_Segments (hsegments h) /\
  - two63 <= sg_offset (seg0 (hsegments h)) < two63 /\
  - two63 <= sg_offset (seg1 (hsegments h)) < two63 /\
  - two63 <= sg_offset (seg2 (hsegments h)) < two63.

End WalFileHeader.

(* ------------------------------------------------------------------ *)
(** ** db_internal.go: [readEntry] *)

Module Index.

Definition entriesPerIndexBlock : nat := 255.

Record slot := mkSlot {
  s_seq : Z; s_topicSize : Z; s_valueSize : Z;
  s_msgOffset : Z; s_expiresAt : Z; s_cacheBlock : list Z
}.

(** The zero value [slot{}]. *)
Definition slot0 : slot := mkSlot 0 0 0 0 0 [].

(** Modelled from the spec: [startBlockIndex] (not in src), the index
    block of a sequence, [blockIndex(seq) = (seq-1) / entriesPerIndexBlock]. *)
Definition startBlockIndex (seq : Z) : Z := (seq - 1) / Z.of_nat entriesPerIndexBlock.

(** The collaborators of [readEntry]:
    - [memGet blockID memseq] is [db.mem.Get]: its data ([None] for a nil
      slice) and whether it returned a non-nil error;
    - [readBlock idx] is [bh.read()] on the block at [blockOffset(idx)]:
      its entries, or [None] when it returns an error;
    - [entrySize] and [unmarshalEntry] are the entry codec ([entry.UnmarshalBinary]
      giving [seq], [topicSize], [valueSize]). *)
Record Collab := mkCollab {
  memGet : Z -> Z -> option (list Z) * bool;
  readBlock : Z -> option (list slot);
  entrySize : nat;
  unmarshalEntry : list Z -> Z * Z * Z
}.

(** [readEntry]. *)
Definition readEntry (c : Collab) (cacheID topicHash seq : Z) : outcome slot :=
  let blockID := startBlockIndex seq in
  let memseq := Z.lxor cacheID seq in
  match memGet c blockID memseq with
  | (_, true) => Fail errMsgIDDeleted
  | (Some data, false) =>
      if (length data <? entrySize c)%nat then Panic   (* data[:entrySize] *)
      else
        let '(sq, ts, vs) := unmarshalEntry c (firstn (entrySize c) data) in
        Ret (mkSlot sq ts vs 0 0 (skipn (entrySize c) data))
  | (None, false) =>
      match readBlock c (startBlockIndex seq) with
      | None => Fail errIO
      | Some entries =>
          match List.find (fun s => s_seq s =? seq) (firstn entriesPerIndexBlock entries) with
          | Some s => Ret s
          | None => Ret slot0
          end
      end
  end.

End Index.

(* ------------------------------------------------------------------ *)
(** ** db_internal.go: sequence assignment in [setEntry] *)

Module SetEntry.

Record leaseSlot := mkLeaseSlot { l_seq : Z; l_msgOffset : Z; l_mSize : Z }.

(** The part of the DB that [setEntry] reads and writes: the sequence
    counter ([db.sequence], a uint64) and the lease free-list. *)
Record DBState := mkDBState { sequence : Z; lease : list leaseSlot }.

(** The fields of [Entry] that [setEntry] reads or assigns; [e_ID] is the
    sequence carried by a caller-supplied message ID ([None] for a nil
    [e.ID]). *)
Record Entry := mkEntry {
  e_ID : option Z; e_parsed : bool; e_Contract : Z; e_topicHash : Z;
  e_ExpiresAt : Z; e_seq : Z; e_expiresAt : Z
}.

(** [nextSeq]: [atomic.AddUint64(&db.sequence, 1)]. *)
Definition nextSeq (db : DBState) : Z * DBState :=
  let n := u64 (sequence db + 1) in (n, mkDBState n (lease db)).

(** Modelled from the spec: [lease.getSlot(topicHash)] (not in src). The
    lease is a sorted free-list of reclaimed [{seq, msgOffset, mSize}]
    slots, and [getSlot] hands out a reusable sequence under the same
    topic when one is available, with the lease it leaves. The spec does
    not say which slot that is (the triples carry no topic), so
    [setEntry] takes [getSlot] as a parameter; [getSlot_from_lease] is
    what the spec fixes: a sequence handed out is the sequence of a slot
    of the lease. *)
Definition getSlot_from_lease (getSlot : list leaseSlot -> Z -> bool * Z * list leaseSlot) : Prop :=
  forall l topicHash s l', getSlot l topicHash = (true, s, l') -> exists x, In x l /\ l_seq x = s.

(** One such [getSlot], to run the model: it hands out the head of the
    free-list, whatever the topic. *)
Definition getSlot_head (l : list leaseSlot) (topicHash : Z) : bool * Z * list leaseSlot :=
  match l with
  | [] => (false, 0, [])
  | s :: rest => (true, l_seq s, rest)
  end.

(** [setEntry] up to the [seq == 0] guard and the assignment of [e.seq];
    [parse] is the result of [db.parseTopic] ([None] for its error, else
    the topic hash and TTL) and [masterContract] is [message.MasterContract]. The encoding of the cache entry that follows
    the assignment reads [e.seq] but does not change it. *)
Definition setEntry (getSlot : list leaseSlot -> Z -> bool * Z * list leaseSlot)
    (masterContract : Z) (parse : option (Z * Z)) (db : DBState) (e : Entry)
    : outcome (Entry * DBState) :=
  let pre :=
    if e_parsed e then Ret e
    else
      let contract := if e_Contract e =? 0 then masterContract else e_Contract e in
      match parse with
      | None => Fail errBadRequest
      | Some (h, ttl) =>
          let exp := if (e_ExpiresAt e =? 0) && (0 <? ttl) then ttl else e_ExpiresAt e in
          Ret (mkEntry (e_ID e) true contract h exp (e_seq e) (e_expiresAt e))
      end in
  match pre with
  | Fail err => Fail err
  | Panic => Panic
  | Ret e =>
      let '(seq, db) :=
        match e_ID e with
        | Some s => (s, db)
        | None =>
            match getSlot (lease db) (e_topicHash e) with
            | (true, s, l') => (s, mkDBState (sequence db) l')
            | (false, _, _) => nextSeq db
            end
        end in
      if seq =? 0 then Panic   (* "db.setEntry: seq is zero" *)
      else Ret (mkEntry (e_ID e) (e_parsed e) (e_Contract e) (e_topicHash e)
                        (e_ExpiresAt e) seq (e_ExpiresAt e), db)
  end.

End SetEntry.

(* ------------------------------------------------------------------ *)
(** ** memdb key/value cache (src/unnamed/part_002): [DB.Set], [DB.Get] *)

Module CacheDB.

(** Modelled from the spec: the memory table behind [blockCache] (the
    filesystem collaborator, not in src) offering allocate, read-at and
    write-at over a byte region of capacity [tcap]; [allocate] hands out
    the next [n] bytes past [tsize], as the sibling [file.extend] of
    src/unnamed/part_000 does. *)
Record Table := mkTable { tmem : Z -> Z; tsize : Z; tcap : Z }.

Definition tbl_allocate (t : Table) (n : Z) : outcome (Z * Table) :=
  if tcap t <? tsize t + n then Fail errIO
  else Ret (tsize t, mkTable (tmem t) (tsize t + n) (tcap t)).

(** The memory after copying [data] to [off]. *)
Definition overlay (m : Z -> Z) (data : list Z) (off : Z) : Z -> Z :=
  fun a => if off <=? a then
             if a <? off + Z.of_nat (length data) then nth (Z.to_nat (a - off)) data 0
             else m a
           else m a.

Definition tbl_writeAt (t : Table) (data : list Z) (off : Z) : outcome Table :=
  let n := Z.of_nat (length data) in
  if tcap t <? off + n then Fail errIO
  else Ret (mkTable (overlay (tmem t) data off) (tsize t) (tcap t)).

Fixpoint addrs (off : Z) (n : nat) : list Z :=
  match n with O => [] | S n' => off :: addrs (off + 1) n' end.

Definition tbl_readRaw (t : Table) (off n : Z) : outcome (list Z) :=
  if tcap t <? off + n then Fail errIO else Ret (map (tmem t) (addrs off (Z.to_nat n))).

Record DB := mkDB { blockCache : Table; cache : gmap Z Z }.

(** [Open] with a table of [memSize] bytes. *)
Definition MaxTableSize : Z := 2 ^ 33 - 1.
Definition Open (memSize : Z) : DB :=
  let memSize := if memSize <? 2 ^ 30 then MaxTableSize else memSize in
  mkDB (mkTable (fun _ => 0) 0 memSize) ∅.

(** [DB.Get]. *)
Definition Get (db : DB) (key : Z) : outcome (list Z) :=
  match cache db !! key with
  | None => Fail errCacheNotFound
  | Some off =>
      match tbl_readRaw (blockCache db) off 4 with
      | Fail e => Fail e
      | Panic => Panic
      | Ret scratch =>
          let dataLen := get_le (slice 0 4 scratch) in
          match tbl_readRaw (blockCache db) off dataLen with
          | Fail e => Fail e
          | Panic => Panic
          | Ret data => if (length data <? 4)%nat then Panic else Ret (skipn 4 data)
          end
      end
  end.

(** [DB.Set]: [uint32(len(data)+4)] is the record length. *)
Definition Set_ (db : DB) (key : Z) (data : list Z) : outcome DB :=
  let dataLen := u32 (Z.of_nat (length data) + 4) in
  match tbl_allocate (blockCache db) dataLen with
  | Fail e => Fail e
  | Panic => Panic
  | Ret (off, t) =>
      match tbl_writeAt t (put_le 4 dataLen) off with
      | Fail e => Fail e
      | Panic => Panic
      | Ret t =>
          match tbl_writeAt t data (off + 4) with
          | Fail e => Fail e
          | Panic => Panic
          | Ret t => Ret (mkDB t (<[key := off]> (cache db)))
          end
      end
  end.

(** [DB.Count]: [uint32(len(db.cache))]. *)
Definition Count (db : DB) : Z := u32 (Z.of_nat (size (cache db))).

(** [DB.FileSize]: [db.blockCache.size]. *)
Definition FileSize (db : DB) : Z := tsize (blockCache db).

(** The abstract view of the cache DB. A record Set at [off] holds its
    uint32 length [len v + 4] then the bytes of [v], within the allocated
    part of the table. *)
Definition stored (t : Table) (off : Z) (v : list Z) : Prop :=
  0 <= off /\ off + Z.of_nat (length v) + 4 <= tsize t /\
  map (tmem t) (addrs off 4) = put_le 4 (Z.of_nat (length v) + 4) /\
  map (tmem t) (addrs (off + 4) (length v)) = v.

(** [cache_rel db abs]: [abs] maps each key of [db.cache] to the value
    stored at its offset. *)
Definition cache_rel (db : DB) (abs : gmap Z (list Z)) : Prop :=
  0 <= tsize (blockCache db) <= tcap (blockCache db) /\
  (forall k, cache db !! k = None <-> abs !! k = None) /\
  (forall k v, abs !! k = Some v -> exists off, cache db !! k = Some off /\
      Z.of_nat (length v) + 4 < two32 /\ stored (blockCache db) off v).

End CacheDB.

(* ------------------------------------------------------------------ *)
(** ** memdb/timelock.go: the records of a time block *)

Module MemBlock.
Import CacheDB.

(** [_Block]: its record count, its data table (the memory table of
    [CacheDB]) and [records : map[_Key]int64], a [_Key] being the pair
    [(delFlag, key)]. *)
Record Block := mkBlock { bcount : Z (* int64 *); bdata : Table; brecords : gmap (Z * Z) Z }.

(** [iKey]. *)
Definition iKey (delFlag : bool) (k : Z) : Z * Z := (if delFlag then 1 else 0, k).

(** [_Block.put]: the record [| u32 dataLen | delFlag | u64 key | data |]
    with [dataLen = uint32(len(data) + 8 + 1 + 4)]. The block is changed in
    place, so a failing write leaves the earlier steps' effects; the
    table never panics, its [Panic] arm is unreachable. *)
Definition block_put (b : Block) (ikey : Z * Z) (data : list Z) : option error * Block :=
  let dataLen := u32 (Z.of_nat (length data) + 8 + 1 + 4) in
  match tbl_allocate (bdata b) dataLen with
  | Fail e => (Some e, b)
  | Panic => (Some errIO, b)
  | Ret (off, t) =>
      let b := mkBlock (bcount b) t (brecords b) in
      match tbl_writeAt t (put_le 4 dataLen) off with
      | Fail e => (Some e, b)
      | Panic => (Some errIO, b)
      | Ret t =>
          let b := mkBlock (bcount b) t (brecords b) in
          match tbl_writeAt t (fst ikey :: put_le 8 (snd ikey)) (off + 4) with
          | Fail e => (Some e, b)
          | Panic => (Some errIO, b)
          | Ret t =>
              let b := mkBlock (bcount b) t (<[ikey := off]> (brecords b)) in
              match tbl_writeAt t data (off + 8 + 1 + 4) with
              | Fail e => (Some e, b)
              | Panic => (Some errIO, b)
              | Ret t =>
                  (None, mkBlock (if fst ikey =? 0 then wrap64 (bcount b + 1) else bcount b)
                                 t (brecords b))
              end
          end
      end
  end.

(** The block effect of [DB.delete(key)] on the block of the current
    TimeID: a put of the deleted key with the TimeID as its data; the
    error of [block.put] is dropped. *)
Definition block_delete (b : Block) (key timeID : Z) : Block :=
  snd (block_put b (iKey true key) (put_le 8 (u64 timeID))).

(** The body of [tinyWrite]'s loop over [block.records]: the bytes it
    appends to the log for the record at [off] ([data[4:]]); [Fail] for a
    failing first read (returned), [Ret None] for a failing second read
    (skipped). *)
Definition tinyWrite_record (t : Table) (off : Z) : outcome (option (list Z)) :=
  match tbl_readRaw t off 4 with
  | Fail e => Fail e
  | Panic => Panic
  | Ret scratch =>
      let dataLen := get_le (slice 0 4 scratch) in
      match tbl_readRaw t off dataLen with
      | Fail _ => Ret None
      | Panic => Panic
      | Ret data => if (length data <? 4)%nat then Panic else Ret (Some (skipn 4 data))
      end
  end.

(** The body of [move]'s loop over the deleted keys: the TimeID stored in
    the deleted record at [off], or [errBadRequest] for a record that is
    not 21 bytes long. *)
Definition move_timeID (t : Table) (off : Z) : outcome Z :=
  match tbl_readRaw t off 4 with
  | Fail e => Fail e
  | Panic => Panic
  | Ret scratch =>
      let dataLen := get_le (slice 0 4 scratch) in
      match tbl_readRaw t off dataLen with
      | Fail e => Fail e
      | Panic => Panic
      | Ret data =>
          if negb (dataLen =? 8 + 1 + 4 + 8) then Fail errBadRequest
          else Ret (WalHeader.int64_of_u64 (get_le (slice 13 (Z.to_nat dataLen) data)))
      end
  end.

(** [block_rel b abs]: [abs] maps each key of [b.records] to the bytes
    after the length word of its record. *)
Definition block_rel (b : Block) (abs : gmap (Z * Z) (list Z)) : Prop :=
  0 <= tsize (bdata b) <= tcap (bdata b) /\
  (forall k, brecords b !! k = None <-> abs !! k = None) /\
  (forall k v, abs !! k = Some v -> exists off, brecords b !! k = Some off /\
      Z.of_nat (length v) + 4 < two32 /\ stored (bdata b) off v).

End MemBlock.

(* ------------------------------------------------------------------ *)
(** ** wal/reader.go: [Reader.Read] and [Reader.Next] *)

Module WalReader.
Import WalHeader WalFile.

(** Modelled from the spec: the [LogStatus] constants WRITTEN, APPLIED and
    RELEASED (declared outside src), numbered by [iota] after a zero status. *)
Definition logStatusWritten : Z := 1.
Definition logStatusApplied : Z := 2.
Definition logStatusReleased : Z := 3.

(** [logData] is a Go slice: [logSpare] holds the bytes of its backing
    array past its length (up to its capacity), which a slice expression
    [logData[a:b]] may reach ([b <= cap]). *)
Record Reader := mkReader {
  logData : list Z; roffset : Z (* int64 *); rentryCount : Z (* uint32 *); logSpare : list Z
}.

(** The WAL as the reader sees it: the recovered group headers, the log
    file (segments and [size] field) and its bytes, and the buffer size. *)
Record WAL := mkWAL {
  recoveredLogs : list LogInfo;
  logFile : File;
  fileData : list Z;
  bufferSize : Z
}.

(** The outcomes of the calls of [Read] into the OS and the buffer pool:
    whether [buffer.Extend(n)] succeeds, whether [File.WriteAt] at an offset
    succeeds, and whether [wal.writeHeader()] (not in src) succeeds. *)
Record IO := mkIO { extend_ok : Z -> bool; write_ok : Z -> bool; header_ok : bool }.

(** [File.ReadAt(buf, off)] with [len(buf) = n]: [io.EOF] unless [n] bytes
    are there. *)
Definition readAt (data : list Z) (n off : Z) : option (list Z) :=
  if (off <? 0) || (n <? 0) || (Z.of_nat (length data) <? off + n) then None
  else Some (slice (Z.to_nat off) (Z.to_nat (off + n)) data).

(** [File.WriteAt(buf, off)], overwriting (and extending past the end). *)
Definition writeBytesAt (data buf : list Z) (off : nat) : list Z :=
  firstn off data ++ repeat 0 (off - length data) ++ buf ++ skipn (off + length buf) data.

(** [_File.writeMarshalableAt] of a group header. *)
Definition writeMarshalableAt (io : IO) (data : list Z) (l : LogInfo) (off : Z) : option (list Z) :=
  if write_ok io off && (0 <=? off) then Some (writeBytesAt data (MarshalBinary l) (Z.to_nat off))
  else None.

(** [bpool.Buffer.Slice(a, b)]. The pooled buffer (bpool is not in src) is
    modelled, after [Reset] and [Extend(size)], as exactly the [size] bytes
    that [readAt] fills, and [Slice(a, b)] as [internal[a:b]], whose spare
    capacity is the rest of those bytes. *)
Definition bufSlice (buf : list Z) (a b : Z) : option (list Z) :=
  if (0 <=? a) && (a <=? b) && (b <=? Z.of_nat (length buf))
  then Some (slice (Z.to_nat a) (Z.to_nat b) buf) else None.

Definition set_status (l : LogInfo) (st : Z) : LogInfo :=
  mkLogInfo (version l) st (timeID l) (entryCount l) (size l) (offset l).

Definition set_recoveredLogs (w : WAL) (ls : list LogInfo) : WAL :=
  mkWAL ls (logFile w) (fileData w) (bufferSize w).
Definition set_fileData (w : WAL) (d : list Z) : WAL :=
  mkWAL (recoveredLogs w) (logFile w) d (bufferSize w).

(** [Reader.Next]; [None] is a panic of a slice expression. The slice
    [logData := r.logData[r.offset:]] keeps the spare capacity, so
    [logData[0:4]] panics only when fewer than 4 bytes are left up to the
    capacity, and [logData[4:dataLen]] (with [dataLen <= len(logData)])
    panics only when [dataLen < 4]. *)
Definition Next (r : Reader) : option (list Z * bool * option error * Reader) :=
  if rentryCount r =? 0 then Some ([], false, None, r)
  else
    let r1 := mkReader (logData r) (roffset r) (rentryCount r - 1) (logSpare r) in
    if (Z.of_nat (length (logData r)) <? roffset r) || (roffset r <? 0) then None
    else
      let ld := skipn (Z.to_nat (roffset r)) (logData r) in
      let ldcap := ld ++ logSpare r in
      if (length ldcap <? 4)%nat then None
      else
        let dataLen := get_le (slice 0 4 ldcap) in
        if u32 (Z.of_nat (length ld)) <? dataLen then Some ([], false, Some errLogData, r1)
        else if dataLen <? 4 then None
        else Some (slice 4 (Z.to_nat dataLen) ld, true, None,
                   mkReader (logData r) (wrap64 (roffset r + dataLen)) (rentryCount r - 1) (logSpare r)).

Section Read.
Context {U : Type}.

(** The caller's callback [f(timeID) (bool, error)]; it sees the reader
    that [Read] sets up, and a state of the caller of type [U]. *)
Variable f : Z -> Reader -> U -> bool * option error * Reader * U.
Variable io : IO.

Record RS := mkRS { rs_wal : WAL; rs_reader : Reader; rs_user : U }.

Inductive inner_res :=
  | IReturn (e : option error) (st : RS)
  | IBreak (idx : nat) (size fileOff : Z) (st : RS)
  | IEnd (idx : nat) (st : RS).

(** The inner [for i := idx; i < l; i++] loop over one buffer window; [k]
    counts the iterations left. *)
Fixpoint inner (k : nat) (i idx : nat) (offset size fileOff : Z) (buf : list Z) (st : RS)
    : inner_res :=
  match k with
  | O => IEnd idx st
  | S k =>
      let w := rs_wal st in
      let segs := segments (logFile w) in
      match nth_error (recoveredLogs w) i with
      | None => IEnd idx st
      | Some ul =>
          let next_offset := wrap64 (wrap64 (offset + WalHeader.size ul)
                                     + freeSize segs (wrap64 (WalHeader.offset ul + WalHeader.size ul))) in
          if (entryCount ul =? 0) || negb (status ul =? logStatusWritten) then
            inner k (S i) (S idx) next_offset size fileOff buf st
          else if size <? WalHeader.size ul then IBreak idx (WalHeader.size ul) fileOff st
          else if size - offset <? WalHeader.size ul then
            IBreak idx (fsize (logFile w) - WalHeader.offset ul) (WalHeader.offset ul) st
          else
            match bufSlice buf (offset + Z.of_nat logHeaderSize) (offset + WalHeader.size ul) with
            | None => IReturn (Some errIO) st
            | Some data =>
                let r := mkReader data 0 (entryCount ul) (skipn (Z.to_nat (offset + WalHeader.size ul)) buf) in
                let '(stop, err, r', u') := f (timeID ul) r (rs_user st) in
                let st := mkRS w r' u' in
                if stop || match err with Some _ => true | None => false end then IReturn err st
                else
                  let ul' := set_status ul logStatusReleased in
                  let w := set_recoveredLogs w (<[i := ul']> (recoveredLogs w)) in
                  match writeMarshalableAt io (fileData w) ul' (WalHeader.offset ul') with
                  | None => IReturn (Some errIO) (mkRS w r' u')
                  | Some d =>
                      inner k (S i) (S idx) next_offset size fileOff buf
                            (mkRS (set_fileData w d) r' u')
                  end
            end
      end
  end.

(** The outer [for { ... }] loop; [fuel] bounds its iterations ([None]
    when it runs out, i.e. the Go loop has not returned yet). *)
Fixpoint outer (fuel : nat) (idx : nat) (size fileOff : Z) (st : RS) : option (option error * RS) :=
  match fuel with
  | O => None
  | S fuel =>
      let w := rs_wal st in
      let l := length (recoveredLogs w) in
      if negb (extend_ok io size) then Some (Some errIO, st)
      else
        match readAt (fileData w) size fileOff with
        | None => Some (Some errIO, st)
        | Some buf =>
            let continue_or_exit idx size fileOff st :=
              if (idx =? l)%nat then
                if header_ok io then Some (None, st) else Some (Some errIO, st)
              else outer fuel idx size fileOff st in
            match inner (l - idx) idx idx 0 size fileOff buf st with
            | IReturn e st => Some (e, st)
            | IBreak idx size fileOff st => continue_or_exit idx size fileOff st
            | IEnd idx st => continue_or_exit idx size fileOff st
            end
        end
  end.

(** The deferred function: [r.wal.recoveredLogs = r.wal.recoveredLogs[:0]]
    (the buffer goes back to the pool and the read lock is released). *)
Definition read_defer (st : RS) : RS :=
  mkRS (set_recoveredLogs (rs_wal st) []) (rs_reader st) (rs_user st).

(** The first loop of [Read]: removing the RELEASED groups one by one. *)
Definition drop_released (ls : list LogInfo) : list LogInfo :=
  List.filter (fun l => negb (status l =? logStatusReleased)) ls.

(** [Reader.Read]. *)
Definition Read (fuel : nat) (st : RS) : option (option error * RS) :=
  let w := rs_wal st in
  let st := mkRS (set_recoveredLogs w (drop_released (recoveredLogs w))) (rs_reader st) (rs_user st) in
  let w := rs_wal st in
  let body :=
    match recoveredLogs w with
    | [] => Some (None, st)
    | l0 :: _ =>
        let fileOff := WalHeader.offset l0 in
        let size := fsize (logFile w) - fileOff in
        let size := if bufferSize w <? size then bufferSize w else size in
        outer fuel 0 size fileOff st
    end in
  match body with
  | None => None
  | Some (e, st) => Some (e, read_defer st)
  end.

End Read.

End WalReader.

(* ------------------------------------------------------------------ *)
(** ** memdb/timelock.go: the replay of [startRecover] *)

Module Recovery.
Import WalReader.

(** The callback that [startRecover] passes to [Reader.Read]: it folds
    the group's records into [log] ([map[uint64][]byte]). [None] is a
    panic of [logData[0]] / [logData[1:9]] on a record shorter than 9 bytes. *)
Fixpoint recover_loop (n : nat) (r : Reader) (log : gmap Z (list Z))
    : option (bool * option error * Reader * gmap Z (list Z)) :=
  match n with
  | O => Some (false, None, r, log)
  | S n =>
      match Next r with
      | None => None
      | Some (logData, ok, err, r) =>
          match err with
          | Some e => Some (false, Some e, r, log)
          | None =>
              if negb ok then Some (false, None, r, log)   (* break *)
              else if (length logData <? 9)%nat then None
              else
                let dBit := nth 0 logData 0 in
                let key := get_le (slice 1 9 logData) in
                let val := skipn 9 logData in
                if dBit =? 1 then
                  let log := match log !! key with Some _ => delete key log | None => log end in
                  recover_loop n r log   (* continue *)
                else recover_loop n r (<[key := val]> log)
          end
      end
  end.

Definition recover_cb (timeID : Z) (r : Reader) (log : gmap Z (list Z))
    : option (bool * option error * Reader * gmap Z (list Z)) :=
  recover_loop (Z.to_nat (rentryCount r)) r log.

(** [Read]'s callback as [startRecover] passes it. The caller's state is
    the recovery map, [None] once the callback has panicked: the panic is
    handed back as [stop] so that [Read] returns at once (its deferred
    truncation runs on a panic as well), and [startRecover] then panics. *)
Definition recover_f (timeID : Z) (r : Reader) (u : option (gmap Z (list Z)))
    : bool * option error * Reader * option (gmap Z (list Z)) :=
  match u with
  | None => (true, None, r, None)
  | Some log =>
      match recover_cb timeID r log with
      | None => (true, None, r, None)
      | Some (stop, err, r', log') => (stop, err, r', Some log')
      end
  end.

(** Modelled from the spec: the memdb as [Get] observes it (a map from key
    to the payload of its live record) and [DB.Put] (not in src), which
    appends a record for the current TimeID and makes it the live one. *)
Definition memdb := gmap Z (list Z).
Definition memdb_Put (m : memdb) (k : Z) (v : list Z) : memdb := <[k := v]> m.

(** The tail of [startRecover]: after [wal.Reset()], [db.Put(k, val)] for
    every binding of [log] (a Go map range, in some order). *)
Definition put_all (log : gmap Z (list Z)) (m : memdb) : memdb :=
  map_fold (fun k v acc => memdb_Put acc k v) m log.

(** [startRecover] on a WAL that needs recovery, from a fresh memdb: a
    new reader, [r.Read] with the callback above (its error is assigned to
    [err], which the [if err := wal.Reset()] below shadows, so it is
    dropped), then [Reset] and the [Put]s, which are taken to succeed.
    [None] is a panic, or [Read] running out of fuel. *)
Definition startRecover (io : IO) (fuel : nat) (w : WAL) : option memdb :=
  match Read recover_f io fuel (mkRS w (mkReader [] 0 0 []) (Some ∅)) with
  | Some (_, st) =>
      match rs_user st with
      | Some log => Some (put_all log ∅)
      | None => None
      end
  | None => None
  end.

(** The staged writes as the memdb issues them: [Put(key, payload)] and
    [Delete(key)], whose record payload is the 8-byte TimeID [tid]. *)
Inductive kvop :=
  | KPut (key : Z) (payload : list Z)
  | KDelete (key : Z) (tid : Z).

(** The record body that [tinyWrite] appends for an operation: the block
    record [| u8 delFlag | u64 key | payload |] after its length word. *)
Definition record_body (o : kvop) : list Z :=
  match o with
  | KPut k v => 0 :: put_le 8 k ++ v
  | KDelete k tid => 1 :: put_le 8 k ++ put_le 8 (u64 tid)
  end.

(** Modelled from the spec: the frame [Writer.Append] gives a record inside
    a WAL group, [| u32 dataLen LE | bytes[dataLen-4] |]. *)
Definition frame (p : list Z) : list Z := put_le 4 (Z.of_nat (length p) + 4) ++ p.

Definition group_body (g : list kvop) : list Z := concat (map (fun o => frame (record_body o)) g).

Definition group_of (g : list kvop) : Z * list Z := (Z.of_nat (length g), group_body g).

(** The reference semantics of the claim: the operations executed directly
    on the key/value view of the memdb, put binding and delete removing. *)
Definition direct_step (m : memdb) (o : kvop) : memdb :=
  match o with
  | KPut k v => <[k := v]> m
  | KDelete k _ => delete k m
  end.

Definition direct (ops : list kvop) : memdb := fold_left direct_step ops ∅.

Definition op_key (o : kvop) : Z := match o with KPut k _ => k | KDelete k _ => k end.

(** A group as the WAL can hold it: 64-bit keys, and a body whose size
    fits the [uint32] size field of the group header. *)
Definition wf_group (g : list kvop) : Prop :=
  Forall (fun o => 0 <= op_key o < two64) g /\
  Z.of_nat (length (group_body g)) + Z.of_nat WalHeader.logHeaderSize < two32.

(** Modelled from the spec: the log file as the writer (not in src) leaves
    it. After the 47-byte file header come the groups one after another,
    each a 28-byte group header with status WRITTEN followed by its
    framed records; the group headers are what recovery lists in
    [recoveredLogs]. *)
Definition group_info (tid off : Z) (g : list kvop) : WalHeader.LogInfo :=
  WalHeader.mkLogInfo 1 logStatusWritten tid (Z.of_nat (length g))
    (Z.of_nat (WalHeader.logHeaderSize + length (group_body g))) off.

Fixpoint layout (tid off : Z) (gs : list (list kvop)) : list WalHeader.LogInfo * list Z :=
  match gs with
  | [] => ([], [])
  | g :: gs =>
      let l := group_info tid off g in
      let '(ls, bytes) := layout (tid + 1) (off + WalHeader.size l) gs in
      (l :: ls, WalHeader.MarshalBinary l ++ group_body g ++ bytes)
  end.

(** The file header carries fresh segments: appending groups by
    [_File.allocate] extends the file and keeps them. *)
Definition wal_of (targetSize bufferSize : Z) (gs : list (list kvop)) : WAL :=
  let hdr := WalFileHeader.Header_MarshalBinary
               (WalFileHeader.mkHeader WalFileHeader.signature0 1 WalFile.newSegments) in
  let '(ls, bytes) := layout 1 WalHeader.headerSize gs in
  mkWAL ls (WalFile.mkFile WalFile.newSegments (WalHeader.headerSize + Z.of_nat (length bytes)) targetSize)
        (hdr ++ bytes) bufferSize.

(** Every call into the OS and the buffer pool succeeds. *)
Definition io_ok : IO := mkIO (fun _ => true) (fun _ => true) true.

End Recovery.

(* ------------------------------------------------------------------ *)
(** ** Sample states *)

Module Samples.
Import WalHeader TimeMark.

(** A time-mark opened at Unix time 1.7e18 ns with a one-hour expiry. *)
Definition tm_open : TimeMark := newTimeMark 3600000000000 1700000000000000000.

(** A released record stamped at Unix time 10^12 ns with a 1 s expiry,
    swept at Unix time 2*10^12 ns. *)
Definition tm_stale : TimeMark :=
  mkTimeMark 1000000000 (mkTimeRecord 0 1500000000000) ∅ {[5 := mkTimeRecord 0 1000000000000]}.

(** A group header with negative TimeID and offset. *)
Definition hdr_sample : LogInfo := mkLogInfo 1 1 (-5) 3 100 (-47).

End Samples.

(* ================================================================== *)
(** * Properties *)

(* ------------------------------------------------------------------ *)
(** ** Little-endian codec *)

Lemma land_byte_shiftl (b y : Z) : 0 <= b < 256 -> Z.land b (Z.shiftl y 8) = 0.
Proof.
  intros Hb. apply Z.bits_inj'; intros i Hi. rewrite Z.land_spec, Z.bits_0.
  destruct (Z.lt_ge_cases i 8) as [Hlt|Hge].
  - rewrite (Z.shiftl_spec_low y 8 i Hlt). apply Bool.andb_false_r.
  - destruct (Z.eq_dec b 0) as [->|Hn]; [rewrite Z.bits_0; reflexivity|].
    assert (Z.log2 b < 8) by (apply Z.log2_lt_pow2; lia).
    rewrite (Z.bits_above_log2 b i) by lia. reflexivity.
Qed.

Lemma lor_byte_shiftl (b y : Z) : 0 <= b < 256 -> Z.lor b (Z.shiftl y 8) = b + y * 256.
Proof.
  intros Hb. rewrite <- Z.lxor_lor, <- Z.add_nocarry_lxor by (apply land_byte_shiftl; lia).
  rewrite Z.shiftl_mul_pow2 by lia. reflexivity.
Qed.

Lemma land_255 (v : Z) : Z.land v 255 = v mod 256.
Proof. change 255 with (Z.ones 8). rewrite Z.land_ones by lia. reflexivity. Qed.

Lemma get_put_le (n : nat) (v : Z) :
  0 <= v < 2 ^ (8 * Z.of_nat n) -> get_le (put_le n v) = v.
Proof.
  revert v; induction n as [|n IH]; intros v Hv; cbn [put_le get_le].
  - simpl in Hv; lia.
  - rewrite IH.
    + rewrite lor_byte_shiftl by (rewrite land_255; apply Z.mod_pos_bound; lia).
      rewrite land_255, Z.shiftr_div_pow2 by lia.
      pose proof (Z.div_mod v (2^8)). change (2^8) with 256 in *. lia.
    + rewrite Z.shiftr_div_pow2 by lia. split; [apply Z.div_pos; lia|].
      apply Z.div_lt_upper_bound; [lia|]. rewrite <- Z.pow_add_r by lia.
      replace (8 + 8 * Z.of_nat n) with (8 * Z.of_nat (S n)) by lia. lia.
Qed.

Lemma length_put_le (n : nat) (v : Z) : length (put_le n v) = n.
Proof. revert v; induction n; intros v; simpl; [reflexivity|]. rewrite IHn. reflexivity. Qed.

Lemma slice_app_l (a x : list Z) (i j : nat) :
  slice (length a + i) (length a + j) (a ++ x) = slice i j x.
Proof.
  unfold slice. replace (length a + j - (length a + i))%nat with (j - i)%nat by lia.
  rewrite skipn_app, skipn_all2 by lia. simpl.
  replace (length a + i - length a)%nat with i by lia. reflexivity.
Qed.

Lemma slice_app_head (a x : list Z) : slice 0 (length a) (a ++ x) = a.
Proof.
  unfold slice. rewrite Nat.sub_0_r, drop_0. apply take_app_length.
Qed.

Lemma u64_range (x : Z) : 0 <= u64 x < two64.
Proof. unfold u64, two64. apply Z.mod_pos_bound. lia. Qed.

Lemma int64_of_u64_u64 (x : Z) : - two63 <= x < two63 -> WalHeader.int64_of_u64 (u64 x) = x.
Proof.
  intros Hx. unfold WalHeader.int64_of_u64, u64, two64, two63 in *.
  destruct (Z.le_gt_cases 0 x).
  - rewrite Z.mod_small by lia. destruct (Z.geb_spec x (2^63)); lia.
  - rewrite <- (Z.mod_unique x (2^64) (-1) (x + 2^64)) by lia.
    destruct (Z.geb_spec (x + 2^64) (2^63)); lia.
Qed.

(* ------------------------------------------------------------------ *)
(** ** C8: the WAL group header codec *)

Section HeaderCodec.
Import WalHeader.

Lemma MarshalBinary_fields (l : LogInfo) :
  length (MarshalBinary l) = 28%nat /\
  slice 0 2 (MarshalBinary l) = put_le 2 (version l) /\
  slice 2 4 (MarshalBinary l) = put_le 2 (status l) /\
  slice 4 12 (MarshalBinary l) = put_le 8 (u64 (timeID l)) /\
  slice 12 16 (MarshalBinary l) = put_le 4 (entryCount l) /\
  slice 16 20 (MarshalBinary l) = put_le 4 (size l) /\
  slice 20 28 (MarshalBinary l) = put_le 8 (u64 (offset l)).
Proof.
  unfold MarshalBinary, slice.
  cbn [put_le app length firstn skipn Nat.sub]. repeat split.
Qed.

(** C8: [MarshalBinary] lays the six fields of a group header out
    little-endian in exactly 28 bytes, as {version:u16, status:u16,
    timeID:i64, entryCount:u32, size:u32, offset:i64}, and
    [UnmarshalBinary] of that buffer gives back every field. *)
Theorem loginfo_marshal_roundtrip (l : LogInfo) :
  wf_LogInfo l ->
  length (MarshalBinary l) = 28%nat /\
  slice 0 2 (MarshalBinary l) = put_le 2 (version l) /\
  slice 2 4 (MarshalBinary l) = put_le 2 (status l) /\
  slice 4 12 (MarshalBinary l) = put_le 8 (u64 (timeID l)) /\
  slice 12 16 (MarshalBinary l) = put_le 4 (entryCount l) /\
  slice 16 20 (MarshalBinary l) = put_le 4 (size l) /\
  slice 20 28 (MarshalBinary l) = put_le 8 (u64 (offset l)) /\
  UnmarshalBinary (MarshalBinary l) = Some l.
Proof.
  intros (Hv & Hs & Ht & He & Hz & Ho).
  pose proof (MarshalBinary_fields l) as (Hlen & H1 & H2 & H3 & H4 & H5 & H6).
  repeat (split; [assumption|]).
  unfold UnmarshalBinary. rewrite Hlen. cbn -[MarshalBinary slice].
  rewrite H1, H2, H3, H4, H5, H6.
  pose proof (u64_range (timeID l)). pose proof (u64_range (offset l)).
  unfold two64, two32, two63 in *.
  rewrite !get_put_le by (cbn [Z.of_nat Pos.of_succ_nat Pos.succ Z.mul]; lia).
  rewrite !int64_of_u64_u64 by (unfold two63; lia).
  destruct l; reflexivity.
Qed.

End HeaderCodec.

(* ------------------------------------------------------------------ *)
(** ** C2, C3, C5: the time-mark ledger *)

Section TimeMarkProps.
Import TimeMark.

Lemma startExpirer_lookup (tm : TimeMark) (clock : Z -> Z) (t : Z) :
  releasedRecords (startExpirer tm clock) !! t =
  match releasedRecords tm !! t with
  | Some r => if isExpired r (durations tm) (clock t) then None else Some r
  | None => None
  end.
Proof.
  unfold startExpirer, set_releasedRecords; cbn [releasedRecords].
  rewrite map_lookup_filter.
  destruct (releasedRecords tm !! t) as [r|]; simpl; [|reflexivity].
  destruct (isExpired r (durations tm) (clock t)) eqn:He; simpl.
  all: reflexivity.
Qed.

(** C2 (as the code has it): whatever refcount [timeID] had, [add] leaves
    [records[timeID]] with refcount 1 (and [lastUnref] 0); the increment
    goes to a discarded copy. *)
Theorem add_resets_refcount (tm : TimeMark) (t : Z) :
  records (add tm t) !! t = Some (mkTimeRecord 1 0).
Proof. unfold add, set_records; cbn [records]. apply lookup_insert_eq. Qed.

(** C3 (as the code has it): [isExpired] compares the expiry instant with
    the sub-second part [Nanosecond()] of the clock, which is below 10^9;
    so a released record stamped at a Unix time of at least one second
    (every stamp taken from [UnixNano()] after 1970-01-01T00:00:01Z) is
    never evicted by [startExpirer], however old it is. *)
Theorem startExpirer_keeps_unix_stamps (tm : TimeMark) (clock : Z -> Z) (t : Z) (r : TimeRecord) :
  releasedRecords tm !! t = Some r ->
  1000000000 <= lastUnref r ->
  0 <= durations tm ->
  lastUnref r + durations tm < two63 ->
  releasedRecords (startExpirer tm clock) !! t = Some r.
Proof.
  intros Hr Hl Hd Ho. rewrite startExpirer_lookup, Hr.
  unfold isExpired, nanosecond, wrap64, two64, two63 in *.
  rewrite (Z.mod_small (lastUnref r + durations tm)) by lia.
  destruct (Z.geb_spec (lastUnref r + durations tm) (2 ^ 63)); [lia|].
  pose proof (Z.mod_pos_bound (clock t) 1000000000).
  destruct (Z.leb_spec (lastUnref r + durations tm) (clock t mod 1000000000)); [lia|].
  rewrite Bool.andb_false_r. reflexivity.
Qed.

Lemma isReleased_spec (tm : TimeMark) (t : Z) : isReleased tm t = true <-> released_in tm t.
Proof.
  unfold isReleased, released_in, record_isReleased.
  destruct (releasedRecords tm !! t) as [r|].
  - destruct (Z.eqb_spec (refs r) (-1)).
    + split; [discriminate|]. intros (r' & Hr & Hn & _). inversion Hr; subst. contradiction.
    + rewrite Bool.andb_true_iff, Z.ltb_lt, Z.ltb_lt. split.
      * intros [H1 H2]. exists r. auto with lia.
      * intros (r' & Hr & _ & H). inversion Hr; subst. lia.
  - split; [discriminate|]. intros (r & Hr & _). discriminate.
Qed.

(** C5 (corrected): [isReleased t] holds exactly when [releasedRecords]
    has [t] with a refcount other than -1 and a stamp strictly between 0
    and the current [timeRecord.lastUnref] (so never for a TimeID that was
    not released); the release that drops the refcount to zero stamps [t]
    with the current time record, so right after it [isReleased t] is
    still false; it turns true once [newTimeRecord] moves the time record
    past the stamp; and from then on every step that [keeps_released]
    (add, isReleased, startExpirer, newTimeRecord with a non-decreasing
    clock, abort of another ID, release that does not drop a re-added [t]
    to zero) keeps it true unless the expirer evicts [t]. *)
Theorem isReleased_lifecycle :
  (forall tm t, isReleased tm t = true <-> released_in tm t) /\
  (forall tm t r, records tm !! t = Some r -> refs r <= 1 ->
     releasedRecords (release tm t) !! t = Some (mkTimeRecord (refs r - 1) (lastUnref (timeRecord tm))) /\
     isReleased (release tm t) t = false) /\
  (forall tm t r now, releasedRecords tm !! t = Some r -> refs r <> -1 ->
     0 < lastUnref r < now -> isReleased (newTimeRecord tm now) t = true) /\
  (forall tm t o, isReleased tm t = true -> keeps_released tm t o ->
     isReleased (step tm o) t = true \/ releasedRecords (step tm o) !! t = None).
Proof.
  split; [exact isReleased_spec|]. split; [|split].
  - intros tm t r Hr Hle. unfold release. rewrite Hr. cbn [refs lastUnref].
    destruct (Z.ltb_spec 0 (refs r - 1)); [lia|]. split.
    + cbn [releasedRecords]. apply lookup_insert_eq.
    + unfold isReleased, record_isReleased. cbn [releasedRecords timeRecord].
      rewrite lookup_insert_eq. cbn [refs lastUnref].
      destruct (refs r - 1 =? -1); [reflexivity|].
      rewrite Z.ltb_irrefl, Bool.andb_false_r. reflexivity.
  - intros tm t r now Hr Hn Hl. apply isReleased_spec.
    exists r. cbn. auto.
  - intros tm t o Hrel Hk. pose proof Hrel as Hin. apply isReleased_spec in Hin.
    destruct Hin as (r & Hr & Hn & Hl).
    destruct o as [u|u|u|clock|now|u]; cbn [step keeps_released] in *.
    + left. apply isReleased_spec. exists r. unfold add, set_records. cbn. auto.
    + unfold release. destruct (records tm !! u) as [m|] eqn:Hm; [|left; exact Hrel].
      cbn [refs lastUnref].
      destruct (Z.ltb_spec 0 (refs m - 1)).
      * left. apply isReleased_spec. exists r. unfold set_records. cbn. auto.
      * destruct (Z.eq_dec u t) as [->|Hne].
        { specialize (Hk eq_refl). rewrite Hm in Hk. lia. }
        left. apply isReleased_spec. exists r. cbn. rewrite lookup_insert_ne by congruence. auto.
    + left. exact Hrel.
    + destruct (isExpired r (durations tm) (clock t)) eqn:He.
      * right. rewrite startExpirer_lookup, Hr, He. reflexivity.
      * left. apply isReleased_spec. exists r.
        split; [rewrite startExpirer_lookup, Hr, He; reflexivity|].
        unfold startExpirer, set_releasedRecords. cbn [timeRecord]. auto.
    + left. apply isReleased_spec. exists r. cbn. auto with lia.
    + left. apply isReleased_spec. exists r. cbn. rewrite lookup_insert_ne by congruence. auto.
Qed.

End TimeMarkProps.

(* ------------------------------------------------------------------ *)
(** ** Concrete runs of the time-mark and the header codec *)

Section TimeMarkRuns.
Import TimeMark Samples.

(** TimeID 5 added twice: the second [add] leaves refcount 1, not 2. *)
Example add_twice_refcount :
  records (add (add tm_open 5) 5) !! 5 = Some (mkTimeRecord 1 0).
Proof. vm_compute. reflexivity. Qed.

(** C5 counterexample: after [add 5; release 5], TimeID 5 has left
    [records] for [releasedRecords] and is not evicted, yet [isReleased 5]
    is false: the release stamps it with the current time record, which
    is not strictly later than itself. *)
Lemma isReleased_after_release_counterexample :
  let tm := run tm_open [OpAdd 5; OpRelease 5] in
  records tm !! 5 = None /\ releasedRecords tm !! 5 <> None /\ isReleased tm 5 = false.
Proof. vm_compute. split; [reflexivity|]. split; [discriminate|reflexivity]. Qed.

(** The same TimeID reads released once the time record has advanced. *)
Example isReleased_after_tick :
  isReleased (run tm_open [OpAdd 5; OpRelease 5; OpNewTimeRecord 1700000000015000000]) 5 = true.
Proof. vm_compute. reflexivity. Qed.

Lemma isReleased_lifecycle_witness :
  let tm := run tm_open [OpAdd 5; OpRelease 5; OpNewTimeRecord 1700000000015000000] in
  isReleased tm 5 = true /\
  keeps_released tm 5 (OpExpire (fun _ => 1700000000020000000)) /\
  (isReleased (step tm (OpExpire (fun _ => 1700000000020000000))) 5 = true \/
   releasedRecords (step tm (OpExpire (fun _ => 1700000000020000000))) !! 5 = None).
Proof.
  intros tm. assert (H : isReleased tm 5 = true) by (vm_compute; reflexivity).
  split; [exact H|]. split; [exact I|].
  destruct isReleased_lifecycle as (_ & _ & _ & Hstep).
  apply (Hstep tm 5 (OpExpire (fun _ => 1700000000020000000))); [exact H|exact I].
Defined.

Lemma startExpirer_keeps_unix_stamps_witness :
  releasedRecords tm_stale !! 5 = Some (mkTimeRecord 0 1000000000000) /\
  1000000000 <= lastUnref (mkTimeRecord 0 1000000000000) /\
  0 <= durations tm_stale /\
  lastUnref (mkTimeRecord 0 1000000000000) + durations tm_stale < two63 /\
  releasedRecords (startExpirer tm_stale (fun _ => 2000000000000)) !! 5 =
    Some (mkTimeRecord 0 1000000000000).
Proof.
  assert (H1 : releasedRecords tm_stale !! 5 = Some (mkTimeRecord 0 1000000000000))
    by (vm_compute; reflexivity).
  assert (H2 : 1000000000 <= lastUnref (mkTimeRecord 0 1000000000000)) by (simpl; lia).
  assert (H3 : 0 <= durations tm_stale) by (simpl; lia).
  assert (H4 : lastUnref (mkTimeRecord 0 1000000000000) + durations tm_stale < two63)
    by (unfold two63; simpl; lia).
  split; [exact H1|]. split; [exact H2|]. split; [exact H3|]. split; [exact H4|].
  apply (startExpirer_keeps_unix_stamps tm_stale (fun _ => 2000000000000) 5 _ H1 H2 H3 H4).
Defined.

End TimeMarkRuns.

Section HeaderRuns.
Import WalHeader Samples.

Lemma loginfo_marshal_roundtrip_witness :
  wf_LogInfo hdr_sample /\ UnmarshalBinary (MarshalBinary hdr_sample) = Some hdr_sample.
Proof.
  assert (H : wf_LogInfo hdr_sample) by (unfold wf_LogInfo, two63, two32; simpl; lia).
  split; [exact H|].
  apply (loginfo_marshal_roundtrip hdr_sample H).
Defined.

End HeaderRuns.

(* ------------------------------------------------------------------ *)
(** ** C6: [_File.allocate] *)

Lemma wrap64_small (x : Z) : - two63 <= x < two63 -> wrap64 x = x.
Proof.
  intros Hx. unfold wrap64, two64, two63 in *.
  destruct (Z.le_gt_cases 0 x).
  - rewrite Z.mod_small by lia. destruct (Z.geb_spec x (2^63)); lia.
  - rewrite <- (Z.mod_unique x (2^64) (-1) (x + 2^64)) by lia.
    destruct (Z.geb_spec (x + 2^64) (2^63)); lia.
Qed.

Section AllocateProps.
Import WalFile.

(** C6: for a request [0 < size < 2^32] on a file whose size, target size
    and segment-1 fields are in their Go ranges with no int64 overflow,
    and whose [Truncate] succeeds, [allocate] either extends the file
    (when [targetSize > size + request] or segment 1 is smaller than the
    request), returning the old end of file and growing the file by
    [size], or carves [size] bytes from segment 1's head, returning its
    old offset and moving its offset up and its size down by [size]. *)
Theorem allocate_spec (truncate_ok : Z -> bool) (f : File) (size : Z)
    (Hsize : 0 < size < two32)
    (Hfile : 0 <= fsize f /\ fsize f + size < two63)
    (Hseg : 0 <= sg_offset (seg1 (segments f)) /\ sg_offset (seg1 (segments f)) + size < two63)
    (Hcur : 0 <= currSize (segments f) < two32)
    (Htrunc : truncate_ok (fsize f + size) = true) :
  allocate truncate_ok f size =
    if (targetSize f >? fsize f + size) || (currSize (segments f) <? size) then
      Ret (fsize f, mkFile (segments f) (fsize f + size) (targetSize f))
    else
      Ret (sg_offset (seg1 (segments f)),
           mkFile (mkSegments (seg0 (segments f))
                              (mkSegment (sg_offset (seg1 (segments f)) + size)
                                         (sg_size (seg1 (segments f)) - size))
                              (seg2 (segments f)))
                  (fsize f) (targetSize f)).
Proof.
  unfold allocate.
  destruct (Z.eqb_spec size 0) as [E|_]; [lia|].
  assert (two63 < two64) by (unfold two63, two64; lia).
  rewrite (wrap64_small (fsize f + size)) by lia.
  destruct ((targetSize f >? fsize f + size) || (currSize (segments f) <? size)) eqn:Hc.
  - rewrite Htrunc. reflexivity.
  - apply Bool.orb_false_iff in Hc as [_ Hc]. apply Z.ltb_ge in Hc.
    unfold seg_allocate, currSize in *.
    rewrite (wrap64_small (sg_offset (seg1 (segments f)) + size)) by lia.
    unfold u32. rewrite Z.mod_small by lia. reflexivity.
Qed.

Lemma allocate_spec_witness :
  let f := mkFile (mkSegments (mkSegment 0 0) (mkSegment 4096 1024) (mkSegment 8192 0)) 16384 0 in
  (0 < 100 < two32) /\
  (0 <= fsize f /\ fsize f + 100 < two63) /\
  (0 <= sg_offset (seg1 (segments f)) /\ sg_offset (seg1 (segments f)) + 100 < two63) /\
  (0 <= currSize (segments f) < two32) /\
  (fun _ : Z => true) (fsize f + 100) = true /\
  allocate (fun _ => true) f 100 =
    Ret (4096, mkFile (mkSegments (mkSegment 0 0) (mkSegment 4196 924) (mkSegment 8192 0)) 16384 0).
Proof.
  intros f.
  assert (H1 : 0 < 100 < two32) by (unfold two32; lia).
  assert (H2 : 0 <= fsize f /\ fsize f + 100 < two63) by (unfold two63; simpl; lia).
  assert (H3 : 0 <= sg_offset (seg1 (segments f)) /\ sg_offset (seg1 (segments f)) + 100 < two63)
    by (unfold two63; simpl; lia).
  assert (H4 : 0 <= currSize (segments f) < two32) by (unfold two32, currSize; simpl; lia).
  assert (H5 : (fun _ : Z => true) (fsize f + 100) = true) by reflexivity.
  split; [exact H1|]. split; [exact H2|]. split; [exact H3|]. split; [exact H4|].
  split; [exact H5|].
  rewrite (allocate_spec (fun _ => true) f 100 H1 H2 H3 H4 H5). reflexivity.
Defined.

End AllocateProps.

(* ------------------------------------------------------------------ *)
(** ** C4: [readEntry] on a miss *)

Section ReadEntryProps.
Import Index.

Lemma find_Forall_none {A} (p : A -> bool) (l : list A) :
  Forall (fun x => p x = false) l -> List.find p l = None.
Proof. induction 1 as [|x l Hx _ IH]; simpl; [reflexivity|]. rewrite Hx. exact IH. Qed.

(** C4 (amended): when the memdb probe misses without error and no slot
    among the first 255 entries of the index block of [startBlockIndex seq]
    carries [seq], [readEntry] returns the zero slot with a nil error;
    [readEntry] returns [MsgIdDeleted] exactly when the memdb probe
    returns an error; and it never returns [MsgIdDoesNotExist], whatever
    its collaborators answer. *)
Theorem readEntry_miss_returns_empty_slot (c : Collab) (cacheID topicHash seq : Z)
    (entries : list slot)
    (Hmem : memGet c (startBlockIndex seq) (Z.lxor cacheID seq) = (None, false))
    (Hblk : readBlock c (startBlockIndex seq) = Some entries)
    (Hnone : Forall (fun s => s_seq s <> seq) (firstn entriesPerIndexBlock entries)) :
  readEntry c cacheID topicHash seq = Ret slot0 /\
  (forall c' cacheID' topicHash' seq',
      readEntry c' cacheID' topicHash' seq' = Fail errMsgIDDeleted <->
      snd (memGet c' (startBlockIndex seq') (Z.lxor cacheID' seq')) = true) /\
  (forall c' cacheID' topicHash' seq',
      readEntry c' cacheID' topicHash' seq' <> Fail errMsgIdDoesNotExist).
Proof.
  split; [|split].
  - unfold readEntry. rewrite Hmem, Hblk.
    rewrite find_Forall_none; [reflexivity|].
    eapply Forall_impl; [exact Hnone|]. intros s Hs. apply Z.eqb_neq. exact Hs.
  - intros c' cacheID' topicHash' seq'. unfold readEntry.
    destruct (memGet c' _ _) as [[data|] [|]]; cbn [snd]; split; intros H;
      try reflexivity; try discriminate.
    + destruct (_ <? _)%nat; [discriminate|].
      destruct (unmarshalEntry c' _) as [[sq ts] vs]. discriminate.
    + destruct (readBlock c' _) as [es|]; [|discriminate].
      destruct (List.find _ _); discriminate.
  - intros c' cacheID' topicHash' seq'. unfold readEntry.
    destruct (memGet c' _ _) as [[data|] [|]]; try discriminate.
    + destruct (_ <? _)%nat; [discriminate|].
      destruct (unmarshalEntry c' _) as [[sq ts] vs]. discriminate.
    + destruct (readBlock c' _) as [es|]; [|discriminate].
      destruct (List.find _ _); discriminate.
Qed.

(** The collaborators of a miss: the memdb holds no entry and the index
    block holds 255 zero slots. *)
Lemma readEntry_miss_returns_empty_slot_witness :
  let c := mkCollab (fun _ _ => (None, false)) (fun _ => Some (repeat slot0 255)) 0
                    (fun _ => (0, 0, 0)) in
  memGet c (startBlockIndex 7) (Z.lxor 0 7) = (None, false) /\
  readBlock c (startBlockIndex 7) = Some (repeat slot0 255) /\
  Forall (fun s => s_seq s <> 7) (firstn entriesPerIndexBlock (repeat slot0 255)) /\
  readEntry c 0 0 7 = Ret slot0.
Proof.
  intros c.
  assert (H1 : memGet c (startBlockIndex 7) (Z.lxor 0 7) = (None, false)) by reflexivity.
  assert (H2 : readBlock c (startBlockIndex 7) = Some (repeat slot0 255)) by reflexivity.
  assert (H3 : Forall (fun s => s_seq s <> 7) (firstn entriesPerIndexBlock (repeat slot0 255))).
  { unfold entriesPerIndexBlock. rewrite firstn_all2 by (rewrite repeat_length; lia).
    apply Forall_forall. intros s Hs. apply list_elem_of_In, repeat_spec in Hs. subst s. simpl. lia. }
  split; [exact H1|]. split; [exact H2|]. split; [exact H3|].
  apply (readEntry_miss_returns_empty_slot c 0 0 7 _ H1 H2 H3).
Defined.

(** C4 counterexample: the memdb probe misses, no slot of the block
    carries sequence 7, and [readEntry] answers the zero slot with no
    error rather than [MsgIdDoesNotExist]. *)
Lemma readEntry_miss_counterexample :
  let c := mkCollab (fun _ _ => (None, false)) (fun _ => Some (repeat slot0 255)) 0
                    (fun _ => (0, 0, 0)) in
  memGet c (startBlockIndex 7) (Z.lxor 0 7) = (None, false) /\
  readBlock c (startBlockIndex 7) = Some (repeat slot0 255) /\
  Forall (fun s => s_seq s <> 7) (firstn entriesPerIndexBlock (repeat slot0 255)) /\
  readEntry c 0 0 7 <> Fail errMsgIdDoesNotExist.
Proof.
  intros c. split; [reflexivity|]. split; [reflexivity|]. split.
  - unfold entriesPerIndexBlock. rewrite firstn_all2 by (rewrite repeat_length; lia).
    apply Forall_forall. intros s Hs. apply list_elem_of_In, repeat_spec in Hs. subst s. simpl. lia.
  - vm_compute. discriminate.
Qed.

End ReadEntryProps.

(* ------------------------------------------------------------------ *)
(** ** C7: the sequence assigned by [setEntry] *)

Section SetEntryProps.
Import SetEntry.

Lemma setEntry_ret_seq (gs : list leaseSlot -> Z -> bool * Z * list leaseSlot)
    (mc : Z) (parse : option (Z * Z)) (db : DBState) (e e' : Entry) (db' : DBState) :
  setEntry gs mc parse db e = Ret (e', db') -> e_seq e' <> 0.
Proof.
  assert (Hpost : forall id parsed contract th exp seq db1,
    (if seq =? 0 then Panic
     else Ret (mkEntry id parsed contract th exp seq exp, db1)) = Ret (e', db') ->
    e_seq e' <> 0).
  { intros id parsed contract th exp seq db1 H. destruct (Z.eqb_spec seq 0); [discriminate|].
    injection H as <- _. exact n. }
  unfold setEntry. intros H.
  destruct (e_parsed e); [|destruct parse as [[h ttl]|]; [|discriminate]];
  cbv beta iota zeta in H;
  [destruct (e_ID e) as [s|] | destruct (e_ID e) as [s|]];
  try (eapply Hpost; exact H);
  destruct (gs _ _) as [[[|] s] l']; unfold nextSeq in H;
  eapply Hpost; exact H.
Qed.

(** C7 (amended): an entry that [setEntry] stores always carries a
    non-zero sequence, whatever [getSlot] answers; and for any [getSlot]
    that hands out sequences of lease slots, an entry without a
    caller-supplied ID does not reach the [seq == 0] panic provided the
    DB counter is below [2^64 - 1] and every lease slot carries a
    non-zero sequence. *)
Theorem setEntry_seq_nonzero (getSlot : list leaseSlot -> Z -> bool * Z * list leaseSlot)
    (mc : Z) (parse : option (Z * Z)) (db : DBState) (e : Entry)
    (Hgs : getSlot_from_lease getSlot)
    (Hctr : 0 <= sequence db < two64 - 1)
    (Hlease : Forall (fun s => l_seq s <> 0) (lease db))
    (Hid : e_ID e = None) :
  (forall gs' mc' parse' db0 e0 e' db',
      setEntry gs' mc' parse' db0 e0 = Ret (e', db') -> e_seq e' <> 0) /\
  setEntry getSlot mc parse db e <> Panic.
Proof.
  split; [exact setEntry_ret_seq|].
  assert (Hnz : forall e1 : Entry, e_ID e1 = None ->
    (let '(seq, db) :=
        match e_ID e1 with
        | Some s => (s, db)
        | None =>
            match getSlot (lease db) (e_topicHash e1) with
            | (true, s, l') => (s, mkDBState (sequence db) l')
            | (false, _, _) => nextSeq db
            end
        end in
      if seq =? 0 then Panic
      else Ret (mkEntry (e_ID e1) (e_parsed e1) (e_Contract e1) (e_topicHash e1)
                        (e_ExpiresAt e1) seq (e_ExpiresAt e1), db)) <> Panic).
  { intros e1 He1. rewrite He1.
    destruct (getSlot (lease db) (e_topicHash e1)) as [[[|] s] l'] eqn:Hg.
    - destruct (Hgs _ _ _ _ Hg) as (x & Hx & Hxs).
      rewrite List.Forall_forall in Hlease. pose proof (Hlease x Hx) as Hx0.
      destruct (Z.eqb_spec s 0); [congruence|discriminate].
    - unfold nextSeq, u64. rewrite Z.mod_small by (unfold two64 in *; lia).
      destruct (Z.eqb_spec (sequence db + 1) 0); [lia|discriminate]. }
  unfold setEntry. destruct (e_parsed e).
  - apply Hnz. exact Hid.
  - destruct parse as [[h ttl]|]; [|discriminate]. apply Hnz. exact Hid.
Qed.

Lemma getSlot_head_from_lease : getSlot_from_lease getSlot_head.
Proof.
  intros l th s l' H. destruct l as [|x rest]; [discriminate|].
  injection H as <- _. exists x. split; [left; reflexivity|reflexivity].
Qed.

Lemma setEntry_seq_nonzero_witness :
  let db := mkDBState 41 [mkLeaseSlot 5 0 0] in
  let e := mkEntry None true 0 99 0 0 0 in
  getSlot_from_lease getSlot_head /\
  (0 <= sequence db < two64 - 1) /\
  Forall (fun s => l_seq s <> 0) (lease db) /\
  e_ID e = None /\
  setEntry getSlot_head 1 None db e <> Panic.
Proof.
  intros db e.
  assert (H1 : 0 <= sequence db < two64 - 1) by (unfold two64; simpl; lia).
  assert (H2 : Forall (fun s => l_seq s <> 0) (lease db)) by (repeat constructor; simpl; lia).
  assert (H3 : e_ID e = None) by reflexivity.
  split; [exact getSlot_head_from_lease|].
  split; [exact H1|]. split; [exact H2|]. split; [exact H3|].
  apply (setEntry_seq_nonzero getSlot_head 1 None db e getSlot_head_from_lease H1 H2 H3).
Defined.

(** C7 counterexample: with the DB counter at [2^64 - 1], an entry
    without an ID and an empty lease takes [nextSeq] (no [getSlot] that
    hands out lease slots finds one), which wraps to 0, and [setEntry]
    panics with "seq is zero". *)
Lemma setEntry_counter_wrap_counterexample :
  getSlot_from_lease getSlot_head /\
  setEntry getSlot_head 1 None (mkDBState (two64 - 1) []) (mkEntry None true 0 99 0 0 0) = Panic.
Proof. split; [exact getSlot_head_from_lease|]. vm_compute. reflexivity. Qed.

End SetEntryProps.

(* ------------------------------------------------------------------ *)
(** ** C9: the cache DB's [Set]/[Get] *)

Section CacheProps.
Import CacheDB.

Lemma addrs_length (off : Z) (n : nat) : length (addrs off n) = n.
Proof. revert off; induction n; intros off; simpl; [reflexivity|]. rewrite IHn. reflexivity. Qed.

Lemma nth_addrs (off : Z) (n i : nat) (d : Z) :
  (i < n)%nat -> nth i (addrs off n) d = off + Z.of_nat i.
Proof.
  revert off i; induction n as [|n IH]; intros off i Hi; [lia|].
  destruct i as [|i]; simpl; [lia|]. rewrite IH by lia. lia.
Qed.

Lemma In_addrs (off : Z) (n : nat) (a : Z) :
  In a (addrs off n) -> off <= a < off + Z.of_nat n.
Proof.
  revert off; induction n as [|n IH]; intros off; simpl; [contradiction|].
  intros [<-|H]; [lia|]. apply IH in H. lia.
Qed.

Lemma addrs_app (off : Z) (n m : nat) :
  addrs off (n + m) = addrs off n ++ addrs (off + Z.of_nat n) m.
Proof.
  revert off; induction n as [|n IH]; intros off; simpl.
  - rewrite Z.add_0_r. reflexivity.
  - rewrite IH. do 3 f_equal. lia.
Qed.

Lemma overlay_read (m : Z -> Z) (data : list Z) (off : Z) (n : nat) :
  length data = n -> map (overlay m data off) (addrs off n) = data.
Proof.
  intros <-. apply (nth_ext _ _ (overlay m data off 0) 0).
  - rewrite length_map, addrs_length. reflexivity.
  - intros i Hi. rewrite length_map, addrs_length in Hi.
    rewrite map_nth, nth_addrs by exact Hi. unfold overlay.
    destruct (Z.leb_spec off (off + Z.of_nat i)); [|lia].
    destruct (Z.ltb_spec (off + Z.of_nat i) (off + Z.of_nat (length data))); [|lia].
    f_equal. lia.
Qed.

Lemma overlay_below (m : Z -> Z) (data : list Z) (off b : Z) (n : nat) :
  b + Z.of_nat n <= off -> map (overlay m data off) (addrs b n) = map m (addrs b n).
Proof.
  intros Hb. apply map_ext_in. intros a Ha. apply In_addrs in Ha.
  unfold overlay. destruct (Z.leb_spec off a); [lia|reflexivity].
Qed.

Lemma slice_0_4 (x : Z) : slice 0 4 (put_le 4 x) = put_le 4 x.
Proof.
  unfold slice. rewrite Nat.sub_0_r, drop_0, firstn_all2; [reflexivity|].
  rewrite length_put_le. lia.
Qed.

Lemma Get_stored (db : DB) (k off : Z) (v : list Z) :
  cache db !! k = Some off -> Z.of_nat (length v) + 4 < two32 ->
  tsize (blockCache db) <= tcap (blockCache db) ->
  stored (blockCache db) off v -> Get db k = Ret v.
Proof.
  intros Hk Hlen Hcap (H0 & Hsz & Hhd & Hdat).
  unfold Get. rewrite Hk. unfold tbl_readRaw.
  destruct (Z.ltb_spec (tcap (blockCache db)) (off + 4)); [lia|].
  change (Z.to_nat 4) with 4%nat. rewrite Hhd, slice_0_4.
  assert (E : 2 ^ (8 * Z.of_nat 4) = two32) by reflexivity.
  rewrite get_put_le by (rewrite E; lia).
  destruct (Z.ltb_spec (tcap (blockCache db)) (off + (Z.of_nat (length v) + 4))); [lia|].
  replace (Z.to_nat (Z.of_nat (length v) + 4)) with (4 + length v)%nat by lia.
  rewrite addrs_app, map_app. change (Z.of_nat 4) with 4. rewrite Hhd, Hdat.
  rewrite length_app, length_put_le.
  destruct (Nat.ltb_spec (4 + length v) 4); [lia|].
  rewrite skipn_app, skipn_all2 by (rewrite length_put_le; lia).
  rewrite length_put_le. reflexivity.
Qed.

Lemma Set_preserves (db : DB) (abs : gmap Z (list Z)) (k : Z) (v : list Z) (db' : DB) :
  cache_rel db abs -> Z.of_nat (length v) + 4 < two32 -> Set_ db k v = Ret db' ->
  cache_rel db' (<[k := v]> abs).
Proof.
  intros (Hcap & Hdom & Hst) Hlen HSet.
  unfold Set_ in HSet.
  assert (Hdl : u32 (Z.of_nat (length v) + 4) = Z.of_nat (length v) + 4)
    by (unfold u32; apply Z.mod_small; lia).
  rewrite Hdl in HSet. unfold tbl_allocate in HSet.
  destruct (Z.ltb_spec (tcap (blockCache db)) (tsize (blockCache db) + (Z.of_nat (length v) + 4)))
    as [|Hfit]; [discriminate|].
  unfold tbl_writeAt in HSet. cbn [tcap tsize tmem] in HSet.
  rewrite length_put_le in HSet.
  destruct (Z.ltb_spec (tcap (blockCache db)) (tsize (blockCache db) + Z.of_nat 4)); [discriminate|].
  cbn [tcap tsize tmem] in HSet.
  destruct (Z.ltb_spec (tcap (blockCache db))
              (tsize (blockCache db) + 4 + Z.of_nat (length v))); [lia|].
  injection HSet as <-.
  set (off := tsize (blockCache db)) in *.
  set (m := tmem (blockCache db)).
  split; [cbn [blockCache tsize tcap]; lia|]. split.
  - intros k0. cbn [cache]. destruct (decide (k0 = k)) as [->|Hne].
    + rewrite !lookup_insert_eq. split; discriminate.
    + rewrite !lookup_insert_ne by congruence. apply Hdom.
  - intros k0 v0 Hk0. cbn [cache blockCache].
    destruct (decide (k0 = k)) as [->|Hne].
    + rewrite lookup_insert_eq in Hk0. injection Hk0 as <-.
      exists off. rewrite lookup_insert_eq. split; [reflexivity|]. split; [exact Hlen|].
      unfold stored; cbn [tmem tsize]. split; [lia|]. split; [lia|]. split.
      * rewrite overlay_below by lia. apply overlay_read, length_put_le.
      * apply overlay_read. reflexivity.
    + rewrite lookup_insert_ne in Hk0 by congruence.
      destruct (Hst k0 v0 Hk0) as (off0 & Hc0 & Hl0 & (Ho0 & Hs0 & Hh0 & Hd0)).
      exists off0. rewrite lookup_insert_ne by congruence.
      split; [exact Hc0|]. split; [exact Hl0|].
      unfold stored; cbn [tmem tsize]. split; [lia|]. split; [lia|]. split.
      * rewrite !overlay_below by lia. exact Hh0.
      * rewrite !overlay_below by lia. exact Hd0.
Qed.

(** C9 (amended): relate the cache DB to the map of the values last Set
    for each key. [Open] starts with the empty map; a successful
    [Set k v] of a value with [len v + 4 < 2^32] (so that the uint32 record
    length does not wrap) binds [k] to [v]; and [Get k] returns the value
    bound to [k], or an error when no [Set] of [k] happened. So from
    [Open], after any sequence of such successful Sets, [Get k] returns
    exactly the value of the most recent [Set k], and a never-Set key
    gives an error. *)
Theorem cache_set_get_roundtrip (memSize : Z) :
  cache_rel (Open memSize) ∅ /\
  (forall db abs k v db',
      cache_rel db abs -> Z.of_nat (length v) + 4 < two32 -> Set_ db k v = Ret db' ->
      cache_rel db' (<[k := v]> abs)) /\
  (forall db abs k,
      cache_rel db abs ->
      Get db k = match abs !! k with Some v => Ret v | None => Fail errCacheNotFound end).
Proof.
  split; [|split].
  - unfold Open, cache_rel, MaxTableSize. cbn [blockCache tsize tcap cache].
    split; [destruct (Z.ltb_spec memSize (2 ^ 30)); lia|]. split.
    + intros k. rewrite !lookup_empty. tauto.
    + intros k v H. rewrite lookup_empty in H. discriminate.
  - exact Set_preserves.
  - intros db abs k (Hcap & Hdom & Hst). destruct (abs !! k) as [v|] eqn:Ha.
    + destruct (Hst k v Ha) as (off & Hk & Hl & Hs). apply (Get_stored db k off v); auto; lia.
    + apply Hdom in Ha. unfold Get. rewrite Ha. reflexivity.
Qed.

Lemma cache_set_get_roundtrip_witness :
  exists db1, Set_ (Open 0) 7 [1; 2; 3] = Ret db1 /\
    cache_rel (Open 0) ∅ /\ Z.of_nat (length [1; 2; 3]) + 4 < two32 /\
    Get db1 7 = Ret [1; 2; 3] /\ Get db1 8 = Fail errCacheNotFound.
Proof.
  eexists. split; [reflexivity|].
  destruct (cache_set_get_roundtrip 0) as (H0 & Hset & Hget).
  assert (Hl : Z.of_nat (length [1; 2; 3]) + 4 < two32) by (unfold two32; simpl; lia).
  split; [exact H0|]. split; [exact Hl|].
  pose proof (Hset _ _ 7 [1; 2; 3] _ H0 Hl eq_refl) as H1.
  rewrite (Hget _ _ 7 H1), (Hget _ _ 8 H1).
  split; [vm_compute; reflexivity|vm_compute; reflexivity].
Defined.

Lemma Set_wrapped_length (v : list Z) :
  Z.of_nat (length v) = two32 ->
  exists db', Set_ (Open MaxTableSize) 7 v = Ret db' /\ Get db' 7 = Ret [].
Proof.
  intros Hv. unfold Set_. rewrite Hv.
  replace (u32 (two32 + 4)) with 4 by reflexivity.
  unfold tbl_allocate, tbl_writeAt, Open. cbn [blockCache tsize tcap tmem cache].
  rewrite Hv. rewrite length_put_le.
  replace (MaxTableSize <? 2 ^ 30) with false by reflexivity.
  cbn [tsize tcap tmem].
  replace (MaxTableSize <? 0 + 4) with false by reflexivity.
  replace (MaxTableSize <? 0 + Z.of_nat 4) with false by reflexivity.
  replace (MaxTableSize <? 0 + 4 + two32) with false by reflexivity.
  eexists. split; [reflexivity|].
  unfold Get. cbn [cache blockCache]. rewrite lookup_insert_eq.
  unfold tbl_readRaw. cbn [tcap tmem].
  replace (MaxTableSize <? 0 + 4) with false by reflexivity.
  reflexivity.
Qed.

(** C9 counterexample: a value of exactly 2^32 bytes is Set into a fresh
    table of [MaxTableSize] bytes; its uint32 record length wraps to 4,
    so the Set succeeds and [Get] returns the empty slice, not the value. *)
Lemma cache_set_get_counterexample :
  exists db', Set_ (Open MaxTableSize) 7 (repeat 0 (Z.to_nat two32)) = Ret db' /\
              Get db' 7 <> Ret (repeat 0 (Z.to_nat two32)).
Proof.
  assert (Hv : Z.of_nat (length (repeat 0 (Z.to_nat two32))) = two32)
    by (rewrite repeat_length, Z2Nat.id; [reflexivity|unfold two32; lia]).
  destruct (Set_wrapped_length _ Hv) as (db' & HS & HG).
  exists db'. split; [exact HS|]. rewrite HG.
  intros E.
  apply (f_equal (fun o : outcome (list Z) => match o with Ret l => length l | _ => 0%nat end)) in E.
  cbv beta iota in E. rewrite repeat_length in E. change (length (@nil Z)) with 0%nat in E.
  assert (Z.of_nat (Z.to_nat two32) = 0) by (rewrite <- E; reflexivity).
  rewrite Z2Nat.id in H by (unfold two32; lia). unfold two32 in H. lia.
Qed.

End CacheProps.

(* ------------------------------------------------------------------ *)
(** ** C10: [Reader.Read] empties [recoveredLogs] *)

Section ReadProps.
Import WalHeader WalFile WalReader.

(** C10: whenever [Read] returns, on its success and on each of its error
    paths (and when the callback stops it), the deferred truncation has
    left [recoveredLogs] empty; so a second [Read] on the resulting state,
    whatever its callback, I/O outcomes and fuel, returns a nil error
    without calling the callback and leaves the state unchanged. *)
Theorem Read_truncates_recoveredLogs {U : Type}
    (f : Z -> Reader -> U -> bool * option error * Reader * U) (io : IO) (fuel : nat)
    (st : RS) (res : option error) (st' : RS)
    (H : Read f io fuel st = Some (res, st')) :
  recoveredLogs (rs_wal st') = [] /\
  (forall (f' : Z -> Reader -> U -> bool * option error * Reader * U) (io' : IO) (fuel' : nat),
      Read f' io' fuel' st' = Some (None, st')).
Proof.
  unfold Read in H.
  match type of H with
  | (match ?b with None => None | Some _ => _ end) = _ => destruct b as [[e st0]|]
  end; [|discriminate].
  injection H as <- <-. split; [reflexivity|].
  intros f' io' fuel'. reflexivity.
Qed.

(** A WAL holding one WRITTEN group of one record at offset 0. *)
Lemma Read_truncates_recoveredLogs_witness :
  let hdr := mkLogInfo 1 logStatusWritten 9 1 33 0 in
  let w := mkWAL [hdr] (mkFile (mkSegments (mkSegment 0 0) (mkSegment 0 0) (mkSegment 0 0)) 33 0)
                 (MarshalBinary hdr ++ put_le 4 5 ++ [42]) 1000 in
  let cb := fun (_ : Z) (r : Reader) (n : nat) => (false, @None error, r, S n) in
  let ok := mkIO (fun _ => true) (fun _ => true) true in
  exists res st',
    Read cb ok 3 (mkRS w (mkReader [] 0 0 []) 0%nat) = Some (res, st') /\
    rs_user st' = 1%nat /\
    recoveredLogs (rs_wal st') = [] /\
    Read cb ok 3 st' = Some (None, st').
Proof.
  intros hdr w cb ok.
  assert (E : exists p, Read cb ok 3 (mkRS w (mkReader [] 0 0 []) 0%nat) = Some p)
    by (eexists; vm_compute; reflexivity).
  destruct E as [[res st'] E]. exists res, st'. split; [exact E|].
  assert (Hu : rs_user st' = 1%nat).
  { vm_compute in E. injection E as _ <-. reflexivity. }
  split; [exact Hu|].
  destruct (Read_truncates_recoveredLogs cb ok 3 _ res st' E) as [H1 H2].
  split; [exact H1|]. apply H2.
Defined.

End ReadProps.

(* ------------------------------------------------------------------ *)
(** ** C1: replaying the WAL in [startRecover] *)

Section RecoveryProps.
Import WalReader Recovery.

Lemma slice_0_4_app (x : Z) (l : list Z) : slice 0 4 (put_le 4 x ++ l) = put_le 4 x.
Proof.
  pose proof (slice_app_head (put_le 4 x) l) as H. rewrite length_put_le in H. exact H.
Qed.

Lemma length_frame (p : list Z) : length (frame p) = (4 + length p)%nat.
Proof. unfold frame. rewrite length_app, length_put_le. reflexivity. Qed.

(** [Reader.Next] on a framed record at the reader's offset. *)
Lemma Next_frame (pre p rest sp : list Z) (cnt : Z) :
  0 < cnt ->
  Z.of_nat (length pre + length (frame p) + length rest) < two32 ->
  Next (mkReader (pre ++ frame p ++ rest) (Z.of_nat (length pre)) cnt sp) =
    Some (p, true, None,
          mkReader (pre ++ frame p ++ rest) (Z.of_nat (length (pre ++ frame p))) (cnt - 1) sp).
Proof.
  intros Hc Hlen. rewrite length_frame in Hlen. unfold Next. cbn [rentryCount logData roffset logSpare].
  destruct (Z.eqb_spec cnt 0); [lia|].
  rewrite !length_app, length_frame.
  destruct (Z.ltb_spec (Z.of_nat (length pre + (4 + length p + length rest))) (Z.of_nat (length pre)));
    [lia|].
  destruct (Z.ltb_spec (Z.of_nat (length pre)) 0); [lia|]. cbn [orb].
  rewrite Nat2Z.id, drop_app_length.
  rewrite !length_app, length_frame.
  destruct (Nat.ltb_spec (4 + length p + length rest + length sp) 4); [lia|].
  unfold frame. rewrite <- !app_assoc, slice_0_4_app.
  assert (E : 2 ^ (8 * Z.of_nat 4) = two32) by reflexivity.
  rewrite get_put_le by (rewrite E; lia).
  unfold u32. rewrite Z.mod_small by (unfold two32 in *; lia).
  destruct (Z.ltb_spec (Z.of_nat (4 + length p + length rest)) (Z.of_nat (length p) + 4)); [lia|].
  destruct (Z.ltb_spec (Z.of_nat (length p) + 4) 4); [lia|].
  replace (Z.to_nat (Z.of_nat (length p) + 4)) with (length (put_le 4 (Z.of_nat (length p) + 4)) + length p)%nat
    by (rewrite length_put_le; lia).
  replace 4%nat with (length (put_le 4 (Z.of_nat (length p) + 4)) + 0)%nat at 1
    by (rewrite length_put_le; lia).
  rewrite slice_app_l, slice_app_head.
  rewrite wrap64_small by (unfold two32, two63 in *; lia).
  do 3 f_equal. lia.
Qed.

Lemma slice_1_9 (b : Z) (x l : list Z) : length x = 8%nat -> slice 1 9 (b :: x ++ l) = x.
Proof.
  intros Hx. unfold slice. replace (9 - 1)%nat with (length x) by lia.
  cbn [skipn]. apply take_app_length.
Qed.

Lemma record_body_decode (o : kvop) :
  0 <= op_key o < two64 ->
  (9 <= length (record_body o))%nat /\
  get_le (slice 1 9 (record_body o)) = op_key o /\
  nth 0 (record_body o) 0 = match o with KPut _ _ => 0 | KDelete _ _ => 1 end /\
  (forall k v, o = KPut k v -> skipn 9 (record_body o) = v).
Proof.
  intros Hk.
  assert (E : 2 ^ (8 * Z.of_nat 8) = two64) by reflexivity.
  destruct o as [k v|k tid]; simpl in Hk; unfold record_body.
  - split; [cbn [length]; rewrite length_app, length_put_le; lia|].
    split; [|split; [reflexivity|]].
    + rewrite slice_1_9 by apply length_put_le. apply get_put_le. rewrite E. exact Hk.
    + intros k' v' Heq. injection Heq as <- <-.
      change (0 :: put_le 8 k ++ v) with ([0] ++ put_le 8 k ++ v).
      rewrite app_assoc. apply drop_app_length'. rewrite length_app, length_put_le. reflexivity.
  - split; [cbn [length]; rewrite length_app, !length_put_le; lia|].
    split; [|split; [reflexivity|intros ? ? Heq; discriminate]].
    rewrite slice_1_9 by apply length_put_le. apply get_put_le. rewrite E. exact Hk.
Qed.

(** The callback of [startRecover] over a group body, one record at a time. *)
Lemma recover_loop_group (ops : list kvop) (pre sp : list Z) (log : gmap Z (list Z)) :
  Forall (fun o => 0 <= op_key o < two64) ops ->
  Z.of_nat (length pre + length (group_body ops)) < two32 ->
  exists r', recover_loop (length ops)
               (mkReader (pre ++ group_body ops) (Z.of_nat (length pre)) (Z.of_nat (length ops)) sp) log =
             Some (false, None, r', fold_left direct_step ops log).
Proof.
  revert pre log. induction ops as [|o ops IH]; intros pre log Hk Hlen.
  - eexists. reflexivity.
  - inversion Hk as [|? ? Hko Hks]; subst.
    change (group_body (o :: ops)) with (frame (record_body o) ++ group_body ops) in *.
    rewrite length_app in Hlen.
    cbn [length recover_loop].
    rewrite Next_frame by lia.
    destruct (record_body_decode o Hko) as (H9 & Hkey & Hbit & Hval).
    destruct (Nat.ltb_spec (length (record_body o)) 9); [lia|].
    rewrite Hkey, Hbit.
    replace (Z.of_nat (S (length ops)) - 1) with (Z.of_nat (length ops)) by lia.
    rewrite app_assoc.
    destruct o as [k v|k tid]; cbn [Z.eqb].
    + rewrite (Hval k v eq_refl).
      apply (IH (pre ++ frame (record_body (KPut k v))) (<[k := v]> log) Hks).
      rewrite length_app. lia.
    + replace (match log !! k with Some _ => delete k log | None => log end) with (delete k log)
        by (destruct (log !! k) eqn:Hl; [reflexivity|apply delete_id; exact Hl]).
      apply (IH (pre ++ frame (record_body (KDelete k tid))) (delete k log) Hks).
      rewrite length_app. lia.
Qed.

Lemma put_all_empty (m : gmap Z (list Z)) : put_all m ∅ = m.
Proof.
  unfold put_all, memdb_Put. induction m as [|i x m Hi IH] using map_ind.
  - apply map_fold_empty.
  - rewrite map_fold_insert_L; [rewrite IH; reflexivity| |exact Hi].
    intros j1 j2 z1 z2 y Hne _ _. apply insert_insert_ne. congruence.
Qed.

(** C1 (code bug): recovery loses a group that does not fit in the read
    buffer when it follows another group in the same buffer window. Two
    WRITTEN groups, a put of key 1 (42 bytes at offset 47) and a put of
    key 2 (81 bytes at offset 89), with a 64-byte buffer: the first group
    is replayed, then the branch [size < ul.size] sets [size = ul.size]
    but keeps the stale [fileOff = 47]; the next window is read from offset
    47, and the data handed to the callback for the second group starts
    with the first group's record. [Read] reports no error, and the memdb
    ends up with key 1 only, while the direct execution binds keys 1 and 2. *)
Lemma startRecover_large_group_counterexample :
  let gs := [[KPut 1 [10]]; [KPut 2 (repeat 20 40)]] in
  let w := wal_of 0 64 gs in
  Forall wf_group gs /\
  map (fun l => (WalHeader.offset l, WalHeader.size l)) (recoveredLogs w) = [(47, 42); (89, 81)] /\
  (exists st, Read recover_f io_ok 4 (mkRS w (mkReader [] 0 0 []) (Some ∅)) = Some (None, st)) /\
  startRecover io_ok 4 w = Some (<[1 := [10]]> ∅) /\
  direct (concat gs) = <[2 := repeat 20 40]> (<[1 := [10]]> ∅).
Proof.
  intros gs w.
  split; [repeat constructor; unfold two64, two32; cbn; lia|].
  split; [reflexivity|].
  split; [eexists; vm_compute; reflexivity|].
  split; vm_compute; reflexivity.
Qed.

End RecoveryProps.

(* ================================================================== *)
(** * Further properties of the code *)

(* ------------------------------------------------------------------ *)
(** ** The WAL file header codec *)

Section FileHeaderCodec.
Import WalFile WalFileHeader.

Lemma Header_fields (h : Header) :
  length (signature h) = 7%nat ->
  let sg := hsegments h in
  length (Header_MarshalBinary h) = 47%nat /\
  slice 0 7 (Header_MarshalBinary h) = signature h /\
  slice 7 11 (Header_MarshalBinary h) = put_le 4 (hversion h) /\
  slice 11 15 (Header_MarshalBinary h) = put_le 4 (sg_size (seg0 sg)) /\
  slice 15 23 (Header_MarshalBinary h) = put_le 8 (u64 (sg_offset (seg0 sg))) /\
  slice 23 27 (Header_MarshalBinary h) = put_le 4 (sg_size (seg1 sg)) /\
  slice 27 35 (Header_MarshalBinary h) = put_le 8 (u64 (sg_offset (seg1 sg))) /\
  slice 35 39 (Header_MarshalBinary h) = put_le 4 (sg_size (seg2 sg)) /\
  slice 39 47 (Header_MarshalBinary h) = put_le 8 (u64 (sg_offset (seg2 sg))).
Proof.
  destruct h as [sig ver sg]. cbn [signature]. intros Hl.
  do 7 (destruct sig as [|? sig]; [discriminate|]).
  destruct sig; [|discriminate].
  unfold Header_MarshalBinary, slice. cbn [signature hversion hsegments].
  cbn [put_le app length firstn skipn Nat.sub]. repeat split.
Qed.

(** [_Header.MarshalBinary] writes a header whose fields are in the
    ranges of their Go types into exactly 47 bytes, and
    [_Header.UnmarshalBinary] of those bytes gives the header back. *)
Theorem header_marshal_roundtrip (h : Header) :
  wf_Header h ->
  length (Header_MarshalBinary h) = 47%nat /\
  Header_UnmarshalBinary (Header_MarshalBinary h) = Some h.
Proof.
  intros (Hsig & Hbytes & Hv & (H0 & H1 & H2) & Ho0 & Ho1 & Ho2).
  pose proof (Header_fields h Hsig) as (Hlen & F0 & F1 & F2 & F3 & F4 & F5 & F6 & F7).
  split; [exact Hlen|].
  unfold Header_UnmarshalBinary. rewrite Hlen. cbn -[Header_MarshalBinary slice].
  rewrite F0, F1, F2, F3, F4, F5, F6, F7.
  pose proof (u64_range (sg_offset (seg0 (hsegments h)))).
  pose proof (u64_range (sg_offset (seg1 (hsegments h)))).
  pose proof (u64_range (sg_offset (seg2 (hsegments h)))).
  unfold two64, two32, two63 in *.
  rewrite !get_put_le by (cbn [Z.of_nat Pos.of_succ_nat Pos.succ Z.mul]; lia).
  rewrite !int64_of_u64_u64 by (unfold two63; lia).
  destruct h as [sig ver [[o0 s0] [o1 s1] [o2 s2]]]. reflexivity.
Qed.

Lemma header_marshal_roundtrip_witness :
  let h := mkHeader signature0 1 newSegments in
  wf_Header h /\ Header_UnmarshalBinary (Header_MarshalBinary h) = Some h.
Proof.
  intros h.
  assert (H : wf_Header h).
  { unfold h, wf_Header, wf_Segments, newSegments, signature0, WalHeader.headerSize, two63, two32; cbn.
    split; [reflexivity|]. split; [repeat (constructor; [lia|]); constructor|].
    lia. }
  split; [exact H|]. apply (header_marshal_roundtrip h H).
Defined.

End FileHeaderCodec.

(* ------------------------------------------------------------------ *)
(** ** The free segments of the WAL file *)

Section SegmentProps.
Import WalFile.

(** A successful [_Segments.free] of [size] bytes grows the free space the
    segments describe by exactly [size], keeps every segment offset and
    leaves segment 2 alone, as long as the [uint32] size it grows does not
    wrap. *)
Theorem seg_free_adds_size (sg sg' : Segments) (offset size : Z) :
  wf_Segments sg -> 0 <= size ->
  sg_size (seg0 sg) + size < two32 -> sg_size (seg1 sg) + size < two32 ->
  seg_free sg offset size = (true, sg') ->
  free_total sg' = free_total sg + size /\ wf_Segments sg' /\
  sg_offset (seg0 sg') = sg_offset (seg0 sg) /\ sg_offset (seg1 sg') = sg_offset (seg1 sg) /\
  seg2 sg' = seg2 sg.
Proof.
  intros (H0 & H1 & H2) Hs Ho0 Ho1 Hf. unfold seg_free in Hf.
  destruct (_ =? offset) in Hf.
  - injection Hf as <-. unfold free_total, wf_Segments, u32; cbn.
    rewrite Z.mod_small by lia. repeat split; lia.
  - destruct (_ =? offset) in Hf; [|discriminate].
    injection Hf as <-. unfold free_total, wf_Segments, u32; cbn.
    rewrite Z.mod_small by lia. repeat split; lia.
Qed.

Lemma seg_free_adds_size_witness :
  let sg := mkSegments (mkSegment 47 100) (mkSegment 500 0) (mkSegment 0 0) in
  wf_Segments sg /\ 0 <= 20 /\ sg_size (seg0 sg) + 20 < two32 /\ sg_size (seg1 sg) + 20 < two32 /\
  seg_free sg 147 20 = (true, mkSegments (mkSegment 47 120) (mkSegment 500 0) (mkSegment 0 0)) /\
  free_total (mkSegments (mkSegment 47 120) (mkSegment 500 0) (mkSegment 0 0)) = free_total sg + 20.
Proof.
  intros sg.
  assert (Hw : wf_Segments sg) by (unfold wf_Segments, two32; cbn; lia).
  assert (H1 : sg_size (seg0 sg) + 20 < two32) by (unfold two32; cbn; lia).
  assert (H2 : sg_size (seg1 sg) + 20 < two32) by (unfold two32; cbn; lia).
  assert (Hf : seg_free sg 147 20 = (true, mkSegments (mkSegment 47 120) (mkSegment 500 0) (mkSegment 0 0)))
    by (vm_compute; reflexivity).
  split; [exact Hw|]. split; [lia|]. split; [exact H1|]. split; [exact H2|]. split; [exact Hf|].
  apply (seg_free_adds_size sg _ 147 20 Hw ltac:(lia) H1 H2 Hf).
Defined.

(** [_Segments.swap] first merges segment 2 into a non-empty segment 1
    that ends where segment 2 starts; then, when [targetSize] is below
    segment 0's size, it rotates: segment 0 keeps its offset with size 0,
    segment 1 takes segment 0's place and segment 2 segment 1's. The free
    space is kept, except that a rotation without that merge discards
    segment 2's free bytes. *)
Theorem swap_free_total (sg : Segments) (targetSize : Z) :
  wf_Segments sg -> sg_size (seg1 sg) + sg_size (seg2 sg) < two32 ->
  let merged := negb (sg_size (seg1 sg) =? 0) &&
                (wrap64 (sg_offset (seg1 sg) + sg_size (seg1 sg)) =? sg_offset (seg2 sg)) in
  wf_Segments (swap sg targetSize) /\
  free_total (swap sg targetSize) =
    free_total sg - (if (targetSize <? sg_size (seg0 sg)) && negb merged then sg_size (seg2 sg) else 0) /\
  (targetSize < sg_size (seg0 sg) ->
     seg0 (swap sg targetSize) = mkSegment (sg_offset (seg0 sg)) 0 /\
     seg1 (swap sg targetSize) = seg0 sg).
Proof.
  intros (H0 & H1 & H2) Ho merged. unfold swap. fold merged.
  destruct merged; cbn [seg0 seg1 seg2 sg_size sg_offset];
    destruct (Z.ltb_spec targetSize (sg_size (seg0 sg))) as [Hlt|Hge];
    unfold wf_Segments, free_total, u32 in *; cbn in *.
  all: try rewrite Z.mod_small by lia.
  all: repeat split; try lia; try reflexivity; try (destruct sg as [[] [] []]; reflexivity).
Qed.

Lemma swap_free_total_witness :
  let sg := mkSegments (mkSegment 47 300) (mkSegment 1000 50) (mkSegment 4000 70) in
  wf_Segments sg /\ sg_size (seg1 sg) + sg_size (seg2 sg) < two32 /\
  swap sg 256 = mkSegments (mkSegment 47 0) (mkSegment 47 300) (mkSegment 1000 50) /\
  free_total (swap sg 256) = free_total sg - 70.
Proof.
  intros sg.
  assert (Hw : wf_Segments sg) by (unfold wf_Segments, two32; cbn; lia).
  assert (Ho : sg_size (seg1 sg) + sg_size (seg2 sg) < two32) by (unfold two32; cbn; lia).
  split; [exact Hw|]. split; [exact Ho|]. split; [vm_compute; reflexivity|].
  destruct (swap_free_total sg 256 Hw Ho) as (_ & Ht & _). rewrite Ht. vm_compute. reflexivity.
Defined.

(** A file whose segments are [newSegments] never reuses free space:
    [segments.currSize()] is 0, so two allocations extend the file one
    after the other, returning the old end of file each time. *)
Theorem allocate_fresh_sequential (truncate_ok : Z -> bool) (fs ts a b : Z) :
  0 <= fs -> 0 < a -> 0 < b -> fs + a + b < two63 ->
  truncate_ok (fs + a) = true -> truncate_ok (fs + a + b) = true ->
  exists f1, allocate truncate_ok (mkFile newSegments fs ts) a = Ret (fs, f1) /\
             allocate truncate_ok f1 b = Ret (fs + a, mkFile newSegments (fs + a + b) ts).
Proof.
  intros Hfs Ha Hb Ho T1 T2. exists (mkFile newSegments (fs + a) ts).
  assert (two63 < two64) by (unfold two63, two64; lia).
  unfold allocate; cbn [fsize segments targetSize].
  destruct (Z.eqb_spec a 0); [lia|]. destruct (Z.eqb_spec b 0); [lia|].
  unfold currSize, newSegments; cbn [seg1 sg_size].
  destruct (Z.ltb_spec 0 a); [|lia]. destruct (Z.ltb_spec 0 b); [|lia].
  rewrite !Bool.orb_true_r.
  rewrite (wrap64_small (fs + a)) by lia. rewrite (wrap64_small (fs + a + b)) by lia.
  rewrite T1, T2. split; reflexivity.
Qed.

Lemma allocate_fresh_sequential_witness :
  0 <= 47 /\ 0 < 100 /\ 0 < 28 /\ 47 + 100 + 28 < two63 /\
  exists f1, allocate (fun _ => true) (mkFile newSegments 47 256) 100 = Ret (47, f1) /\
             allocate (fun _ => true) f1 28 = Ret (47 + 100, mkFile newSegments (47 + 100 + 28) 256).
Proof.
  assert (Ho : 47 + 100 + 28 < two63) by (unfold two63; lia).
  split; [lia|]. split; [lia|]. split; [lia|]. split; [exact Ho|].
  apply (allocate_fresh_sequential (fun _ => true) 47 256 100 28); [lia|lia|lia|exact Ho|reflexivity|reflexivity].
Defined.

End SegmentProps.

(* ------------------------------------------------------------------ *)
(** ** [Reader.Next] at the edges of the log data *)

Section NextProps.
Import WalReader Recovery.

(** [Reader.Next] on a record framed as [| u32 dataLen | payload |] at the
    reader's offset returns the payload with [ok] and no error, moves the
    offset past the frame and counts the entry off. *)
Theorem Next_reads_frame (pre p rest sp : list Z) (cnt : Z) :
  0 < cnt ->
  Z.of_nat (length pre + length (frame p) + length rest) < two32 ->
  Next (mkReader (pre ++ frame p ++ rest) (Z.of_nat (length pre)) cnt sp) =
    Some (p, true, None,
          mkReader (pre ++ frame p ++ rest) (Z.of_nat (length (pre ++ frame p))) (cnt - 1) sp).
Proof. exact (Next_frame pre p rest sp cnt). Qed.

Lemma Next_reads_frame_witness :
  0 < 2 /\ Z.of_nat (length [9] + length (frame [5; 6]) + length [7]) < two32 /\
  Next (mkReader ([9] ++ frame [5; 6] ++ [7]) (Z.of_nat (length [9])) 2 ([3])) =
    Some ([5; 6], true, None, mkReader ([9] ++ frame [5; 6] ++ [7]) 7 1 ([3])).
Proof.
  assert (H : Z.of_nat (length [9] + length (frame [5; 6]) + length [7]) < two32)
    by (unfold two32; cbn; lia).
  split; [lia|]. split; [exact H|].
  rewrite (Next_reads_frame [9] [5; 6] [7] [3] 2 ltac:(lia) H). reflexivity.
Defined.

Lemma Next_overlong (pre rest sp : list Z) (dataLen cnt : Z) :
  0 < cnt -> 0 <= dataLen < two32 ->
  Z.of_nat (length pre + 4 + length rest) < two32 ->
  Z.of_nat (4 + length rest) < dataLen ->
  Next (mkReader (pre ++ put_le 4 dataLen ++ rest) (Z.of_nat (length pre)) cnt sp) =
    Some ([], false, Some errLogData,
          mkReader (pre ++ put_le 4 dataLen ++ rest) (Z.of_nat (length pre)) (cnt - 1) sp).
Proof.
  intros Hc Hd Hlen Hover. unfold Next. cbn [rentryCount logData roffset logSpare].
  destruct (Z.eqb_spec cnt 0); [lia|].
  rewrite !length_app, length_put_le.
  destruct (Z.ltb_spec (Z.of_nat (length pre + (4 + length rest))) (Z.of_nat (length pre))); [lia|].
  destruct (Z.ltb_spec (Z.of_nat (length pre)) 0); [lia|]. cbn [orb].
  rewrite Nat2Z.id, drop_app_length.
  rewrite !length_app, length_put_le.
  destruct (Nat.ltb_spec (4 + length rest + length sp) 4); [lia|].
  rewrite <- app_assoc, slice_0_4_app.
  assert (E : 2 ^ (8 * Z.of_nat 4) = two32) by reflexivity.
  rewrite get_put_le by (rewrite E; lia).
  unfold u32. rewrite Z.mod_small by (unfold two32 in *; lia).
  destruct (Z.ltb_spec (Z.of_nat (4 + length rest)) dataLen); [reflexivity|lia].
Qed.

(** A record whose length word claims more bytes than are left makes
    [Reader.Next] return "logData error" with [ok = false]; the entry is
    counted off but the offset does not move. *)
Theorem Next_overlong_record (pre rest sp : list Z) (dataLen cnt : Z) :
  0 < cnt -> 0 <= dataLen < two32 ->
  Z.of_nat (length pre + 4 + length rest) < two32 ->
  Z.of_nat (4 + length rest) < dataLen ->
  Next (mkReader (pre ++ put_le 4 dataLen ++ rest) (Z.of_nat (length pre)) cnt sp) =
    Some ([], false, Some errLogData,
          mkReader (pre ++ put_le 4 dataLen ++ rest) (Z.of_nat (length pre)) (cnt - 1) sp).
Proof. exact (Next_overlong pre rest sp dataLen cnt). Qed.

Lemma Next_overlong_record_witness :
  Next (mkReader ([] ++ put_le 4 100 ++ [1; 2; 3]) (Z.of_nat (length (@nil Z))) 3 [8; 9]) =
    Some ([], false, Some errLogData, mkReader ([] ++ put_le 4 100 ++ [1; 2; 3]) 0 2 [8; 9]).
Proof.
  apply (Next_overlong_record [] [1; 2; 3] [8; 9] 100 3); unfold two32; cbn; lia.
Defined.

(** With entries left to read but the offset at the end of the log data,
    [Reader.Next] never returns a record: it takes the length word from
    the slice's spare capacity, panics when fewer than 4 spare bytes are
    there or the word is 0, and otherwise returns "logData error" with
    [ok = false], counting the entry off without moving the offset. *)
Theorem Next_past_end (r : Reader) :
  rentryCount r <> 0 -> roffset r = Z.of_nat (length (logData r)) ->
  Next r =
    if (length (logSpare r) <? 4)%nat then None
    else if 0 <? get_le (firstn 4 (logSpare r))
    then Some ([], false, Some errLogData,
               mkReader (logData r) (roffset r) (rentryCount r - 1) (logSpare r))
    else None.
Proof.
  intros Hc Ho. unfold Next.
  destruct (Z.eqb_spec (rentryCount r) 0); [contradiction|].
  rewrite Ho, Z.ltb_irrefl.
  destruct (Z.ltb_spec (Z.of_nat (length (logData r))) 0); [lia|]. cbn [orb].
  rewrite Nat2Z.id, drop_all. cbn [app length].
  destruct (Nat.ltb (length (logSpare r)) 4); [reflexivity|].
  unfold slice. rewrite drop_0. replace (4 - 0)%nat with 4%nat by reflexivity.
  change (u32 (Z.of_nat 0)) with 0.
  destruct (0 <? get_le (firstn 4 (logSpare r))) eqn:Hd; [reflexivity|].
  apply Z.ltb_ge in Hd.
  destruct (Z.ltb_spec (get_le (firstn 4 (logSpare r))) 4); [reflexivity|lia].
Qed.

(** A group body cut inside its records: past the end the spare capacity
    holds the next group's header, whose first word (version 1, status 1)
    is 65537. *)
Lemma Next_past_end_witness :
  Next (mkReader (frame [5; 6]) 6 1 [1; 0; 1; 0; 7]) =
    Some ([], false, Some errLogData, mkReader (frame [5; 6]) 6 0 [1; 0; 1; 0; 7]).
Proof. rewrite (Next_past_end (mkReader (frame [5; 6]) 6 1 [1; 0; 1; 0; 7])); cbn; [reflexivity|lia|reflexivity]. Defined.

End NextProps.

(* ------------------------------------------------------------------ *)
(** ** The time-mark ledger: refcounts and aborts *)

Section TimeMarkMore.
Import TimeMark.

Lemma step_refs_one (tm : TimeMark) (o : op) :
  (forall t r, records tm !! t = Some r -> r = mkTimeRecord 1 0) ->
  forall t r, records (step tm o) !! t = Some r -> r = mkTimeRecord 1 0.
Proof.
  intros H t r. destruct o as [u|u|u|clock|now|u]; cbn [step].
  - unfold add, set_records; cbn [records]. destruct (decide (t = u)) as [->|Hne].
    + rewrite lookup_insert_eq. congruence.
    + rewrite lookup_insert_ne by congruence. apply H.
  - unfold release. destruct (records tm !! u) as [m|] eqn:Hm; [|apply H].
    rewrite (H u m Hm). cbn [refs lastUnref]. change (0 <? 1 - 1) with false. cbv iota.
    cbn [records]. intros Ht. apply lookup_delete_Some in Ht as [_ Ht]. exact (H t r Ht).
  - apply H.
  - unfold startExpirer, set_releasedRecords; cbn [records]. apply H.
  - unfold newTimeRecord; cbn [records]. apply H.
  - unfold abort; cbn [records]. intros Ht. apply lookup_delete_Some in Ht as [_ Ht]. exact (H t r Ht).
Qed.

Lemma run_refs_one (tm : TimeMark) (os : list op) :
  (forall t r, records tm !! t = Some r -> r = mkTimeRecord 1 0) ->
  forall t r, records (run tm os) !! t = Some r -> r = mkTimeRecord 1 0.
Proof.
  unfold run. revert tm. induction os as [|o os IH]; intros tm H; cbn [fold_left]; [exact H|].
  apply IH. apply step_refs_one. exact H.
Qed.

(** In every ledger the time-mark operations build from [newTimeMark],
    each TimeID in [records] has refcount 1 and [lastUnref] 0, however
    many times it was added; so a single [release] moves it to
    [releasedRecords] with refcount 0, stamped with the current time
    record. *)
Theorem timemark_single_release (d now : Z) (os : list op) (t : Z) :
  let tm := run (newTimeMark d now) os in
  (forall u r, records tm !! u = Some r -> r = mkTimeRecord 1 0) /\
  (records tm !! t <> None ->
     records (release tm t) !! t = None /\
     releasedRecords (release tm t) !! t = Some (mkTimeRecord 0 (lastUnref (timeRecord tm)))).
Proof.
  intros tm.
  assert (H : forall u r, records tm !! u = Some r -> r = mkTimeRecord 1 0).
  { apply run_refs_one. intros u r Hr. cbn in Hr. rewrite lookup_empty in Hr. discriminate. }
  split; [exact H|]. intros Hin.
  destruct (records tm !! t) as [r|] eqn:Hr; [|contradiction].
  unfold release. rewrite Hr, (H t r Hr). cbn [refs lastUnref]. change (0 <? 1 - 1) with false.
  cbv iota. cbn [records releasedRecords].
  split; [apply lookup_delete_eq|apply lookup_insert_eq].
Qed.

Lemma timemark_single_release_witness :
  let tm := run (newTimeMark 1000 5000) [OpAdd 7; OpAdd 7; OpAdd 7] in
  records tm !! 7 <> None /\ records (release tm 7) !! 7 = None.
Proof.
  intros tm. assert (Hin : records tm !! 7 <> None) by (vm_compute; discriminate).
  split; [exact Hin|].
  apply (proj2 (timemark_single_release 1000 5000 [OpAdd 7; OpAdd 7; OpAdd 7] 7) Hin).
Defined.

(** [abort(t)] takes [t] out of [records] and marks it aborted
    ([isAborted] true, [isReleased] false); it stays aborted under every
    later step, until the expirer evicts it or a [release] of a re-added
    [t] overwrites the mark. *)
Theorem abort_lifecycle :
  (forall tm t, isAborted (abort tm t) t = true /\ isReleased (abort tm t) t = false /\
                records (abort tm t) !! t = None) /\
  (forall tm t o, isAborted tm t = true ->
     match o with OpRelease u => u <> t \/ records tm !! t = None | _ => True end ->
     isAborted (step tm o) t = true \/ releasedRecords (step tm o) !! t = None).
Proof.
  split.
  - intros tm t. unfold abort, isAborted, isReleased; cbn [records releasedRecords].
    rewrite !lookup_insert_eq, lookup_delete_eq. cbn. auto.
  - intros tm t o Ha Ho. unfold isAborted in *.
    destruct o as [u|u|u|clock|now|u]; cbn [step] in *.
    + left. exact Ha.
    + unfold release. destruct (records tm !! u) as [m|] eqn:Hm; [|left; exact Ha].
      cbn [refs lastUnref]. destruct (0 <? refs m - 1); [left; exact Ha|].
      cbn [releasedRecords]. destruct (decide (u = t)) as [->|Hne].
      * destruct Ho as [Ho|Ho]; [contradiction|congruence].
      * left. rewrite lookup_insert_ne by congruence. exact Ha.
    + left. exact Ha.
    + rewrite startExpirer_lookup. destruct (releasedRecords tm !! t) as [r|]; [|discriminate].
      destruct (isExpired r (durations tm) (clock t)); [right; reflexivity|left; exact Ha].
    + left. exact Ha.
    + left. unfold abort; cbn [releasedRecords]. destruct (decide (u = t)) as [->|Hne].
      * rewrite lookup_insert_eq. reflexivity.
      * rewrite lookup_insert_ne by congruence. exact Ha.
Qed.

End TimeMarkMore.

(* ------------------------------------------------------------------ *)
(** ** [DB.Count] and [DB.FileSize] across [DB.Set] *)

Section CacheAccounting.
Import CacheDB.

(** A successful [DB.Set(k, v)] appends a new record: [FileSize] grows by
    the record length [uint32(len(v)+4)] even when [k] was already set
    (the old record's space is never reused), [k] now points at the old
    end of the table, and [Count] grows by one exactly when [k] is new. *)
Theorem Set_accounting (db db' : DB) (k : Z) (v : list Z) :
  Set_ db k v = Ret db' ->
  FileSize db' = FileSize db + u32 (Z.of_nat (length v) + 4) /\
  cache db' !! k = Some (FileSize db) /\
  Count db' = u32 (Z.of_nat (size (cache db)) + match cache db !! k with Some _ => 0 | None => 1 end).
Proof.
  intros HSet. unfold Set_, tbl_allocate, tbl_writeAt in HSet. cbv zeta in HSet.
  destruct (tcap (blockCache db) <? _) in HSet; [discriminate|].
  cbn [tcap tsize tmem] in HSet.
  destruct (tcap (blockCache db) <? _) in HSet; [discriminate|].
  cbn [tcap tsize tmem] in HSet.
  destruct (tcap (blockCache db) <? _) in HSet; [discriminate|].
  injection HSet as <-. unfold FileSize, Count; cbn [blockCache cache tsize].
  split; [reflexivity|]. split; [apply lookup_insert_eq|].
  rewrite map_size_insert. destruct (cache db !! k); cbn; f_equal; lia.
Qed.

Lemma Set_accounting_witness :
  exists db1 db2,
    Set_ (Open 0) 1 [10; 20] = Ret db1 /\ Set_ db1 1 [30] = Ret db2 /\
    FileSize db2 = 11 /\ Count db2 = 1.
Proof.
  pose proof (Set_accounting (Open 0) _ 1 [10; 20] eq_refl) as (F1 & K1 & C1).
  match type of K1 with
  | cache ?d !! _ = _ => pose proof (Set_accounting d _ 1 [30] eq_refl) as (F2 & K2 & C2)
  end.
  do 2 eexists. split; [reflexivity|]. split; [reflexivity|]. split.
  - rewrite F2, F1. vm_compute. reflexivity.
  - rewrite C2, K1. cbn [cache Open]. rewrite map_size_insert, lookup_empty, map_size_empty.
    reflexivity.
Defined.

End CacheAccounting.

(* ------------------------------------------------------------------ *)
(** ** The records of a time block ([_Block.put], [tinyWrite], [move]) *)

Section BlockProps.
Import CacheDB MemBlock Recovery.

Lemma block_put_ok (b b' : Block) (abs : gmap (Z * Z) (list Z)) (ik : Z * Z) (data : list Z) :
  block_rel b abs -> Z.of_nat (length data) + 13 < two32 ->
  block_put b ik data = (None, b') ->
  block_rel b' (<[ik := fst ik :: put_le 8 (snd ik) ++ data]> abs) /\
  bcount b' = (if fst ik =? 0 then wrap64 (bcount b + 1) else bcount b) /\
  brecords b' !! ik = Some (tsize (bdata b)) /\
  tsize (bdata b') = tsize (bdata b) + Z.of_nat (length data) + 13.
Proof.
  intros (Hcap & Hdom & Hst) Hlen Hput. unfold block_put in Hput.
  assert (Hdl : u32 (Z.of_nat (length data) + 8 + 1 + 4) = Z.of_nat (length data) + 8 + 1 + 4)
    by (unfold u32; apply Z.mod_small; lia).
  rewrite Hdl in Hput. unfold tbl_allocate in Hput.
  destruct (Z.ltb_spec (tcap (bdata b)) (tsize (bdata b) + (Z.of_nat (length data) + 8 + 1 + 4)))
    as [|Hfit]; [discriminate|].
  unfold tbl_writeAt in Hput. cbn [tcap tsize tmem bdata bcount brecords] in Hput.
  change (length (fst ik :: put_le 8 (snd ik))) with (S (length (put_le 8 (snd ik)))) in Hput.
  rewrite !length_put_le in Hput.
  destruct (Z.ltb_spec (tcap (bdata b)) (tsize (bdata b) + Z.of_nat 4)); [discriminate|].
  cbn [tcap tsize tmem bdata bcount brecords] in Hput.
  destruct (Z.ltb_spec (tcap (bdata b)) (tsize (bdata b) + 4 + Z.of_nat 9)); [discriminate|].
  cbn [tcap tsize tmem bdata bcount brecords] in Hput.
  destruct (Z.ltb_spec (tcap (bdata b)) (tsize (bdata b) + 8 + 1 + 4 + Z.of_nat (length data)));
    [discriminate|].
  apply (f_equal snd) in Hput. cbn [snd] in Hput. subst b'.
  set (off := tsize (bdata b)) in *.
  set (m := tmem (bdata b)).
  set (k9 := fst ik :: put_le 8 (snd ik)).
  assert (Hk9 : length k9 = 9%nat) by (unfold k9; cbn [length]; rewrite length_put_le; reflexivity).
  change (fst ik :: put_le 8 (snd ik) ++ data) with (k9 ++ data).
  split; [|split; [reflexivity|split; [apply lookup_insert_eq|cbn [bdata tsize]; lia]]].
  split; [cbn [bdata tsize tcap]; lia|]. split.
  - intros k0. cbn [brecords]. destruct (decide (k0 = ik)) as [->|Hne].
    + rewrite !lookup_insert_eq. split; discriminate.
    + rewrite !lookup_insert_ne by congruence. apply Hdom.
  - intros k0 v0 Hk0. cbn [brecords bdata].
    destruct (decide (k0 = ik)) as [->|Hne].
    + rewrite lookup_insert_eq in Hk0.
      apply (f_equal (fun o => match o with Some x => x | None => [] end)) in Hk0.
      cbv beta iota in Hk0. subst v0.
      exists off. rewrite lookup_insert_eq. split; [reflexivity|].
      rewrite length_app, Hk9. split; [lia|].
      unfold stored; cbn [tmem tsize]. rewrite length_app, Hk9.
      split; [lia|]. split; [lia|]. split.
      * rewrite !overlay_below by lia. replace (Z.of_nat (9 + length data) + 4)
          with (Z.of_nat (length data) + 8 + 1 + 4) by lia.
        apply overlay_read, length_put_le.
      * rewrite addrs_app, map_app. f_equal.
        -- rewrite overlay_below by lia. apply overlay_read. exact Hk9.
        -- replace (off + 4 + Z.of_nat 9) with (off + 8 + 1 + 4) by lia.
           apply overlay_read. reflexivity.
    + rewrite lookup_insert_ne in Hk0 by congruence.
      destruct (Hst k0 v0 Hk0) as (off0 & Hc0 & Hl0 & (Ho0 & Hs0 & Hh0 & Hd0)).
      exists off0. rewrite lookup_insert_ne by congruence.
      split; [exact Hc0|]. split; [exact Hl0|].
      unfold stored; cbn [tmem tsize]. split; [lia|]. split; [lia|]. split.
      * rewrite !overlay_below by lia. exact Hh0.
      * rewrite !overlay_below by lia. exact Hd0.
Qed.

Lemma tinyWrite_record_stored (t : Table) (off : Z) (v : list Z) :
  Z.of_nat (length v) + 4 < two32 -> tsize t <= tcap t -> stored t off v ->
  tinyWrite_record t off = Ret (Some v).
Proof.
  intros Hlen Hcap (H0 & Hsz & Hhd & Hdat).
  unfold tinyWrite_record, tbl_readRaw.
  destruct (Z.ltb_spec (tcap t) (off + 4)); [lia|].
  change (Z.to_nat 4) with 4%nat. rewrite Hhd, slice_0_4.
  assert (E : 2 ^ (8 * Z.of_nat 4) = two32) by reflexivity.
  rewrite get_put_le by (rewrite E; lia).
  destruct (Z.ltb_spec (tcap t) (off + (Z.of_nat (length v) + 4))); [lia|].
  replace (Z.to_nat (Z.of_nat (length v) + 4)) with (4 + length v)%nat by lia.
  rewrite addrs_app, map_app. change (Z.of_nat 4) with 4. rewrite Hhd, Hdat.
  rewrite length_app, length_put_le.
  destruct (Nat.ltb_spec (4 + length v) 4); [lia|].
  rewrite skipn_app, skipn_all2 by (rewrite length_put_le; lia).
  rewrite length_put_le. reflexivity.
Qed.

Lemma block_rel_read (b : Block) (abs : gmap (Z * Z) (list Z)) (k : Z * Z) (v : list Z) :
  block_rel b abs -> abs !! k = Some v ->
  exists off, brecords b !! k = Some off /\ stored (bdata b) off v /\
              tinyWrite_record (bdata b) off = Ret (Some v).
Proof.
  intros (Hcap & Hdom & Hst) Hk. destruct (Hst k v Hk) as (off & Ho & Hl & Hs).
  exists off. split; [exact Ho|]. split; [exact Hs|].
  apply tinyWrite_record_stored; [exact Hl|lia|exact Hs].
Qed.

Lemma block_rel_empty (t : Table) (c : Z) :
  0 <= tsize t <= tcap t -> block_rel (mkBlock c t ∅) ∅.
Proof.
  intros Ht. split; [exact Ht|]. split.
  - intros k. rewrite !lookup_empty. tauto.
  - intros k v H. rewrite lookup_empty in H. discriminate.
Qed.

(** [_Block.put] keeps every record of the block readable: after a put of
    [data] under [(delFlag, key)] (with [len(data) + 13 < 2^32], so that
    the uint32 record length does not wrap), [records[(delFlag, key)]] is
    the old end of the table, the record there holds
    [delFlag :: key (8 bytes LE) ++ data], the other records are
    unchanged, the table grows by [len(data) + 13], and [count] grows by
    one exactly for a put ([delFlag = 0]). *)
Theorem block_put_keeps_records (b b' : Block) (abs : gmap (Z * Z) (list Z)) (ik : Z * Z)
    (data : list Z) :
  block_rel b abs -> Z.of_nat (length data) + 13 < two32 ->
  block_put b ik data = (None, b') ->
  block_rel b' (<[ik := fst ik :: put_le 8 (snd ik) ++ data]> abs) /\
  brecords b' !! ik = Some (tsize (bdata b)) /\
  tsize (bdata b') = tsize (bdata b) + Z.of_nat (length data) + 13 /\
  bcount b' = (if fst ik =? 0 then wrap64 (bcount b + 1) else bcount b).
Proof.
  intros Hrel Hlen Hput. destruct (block_put_ok b b' abs ik data Hrel Hlen Hput) as (H1 & H2 & H3 & H4).
  auto.
Qed.

Lemma block_put_keeps_records_witness :
  let b := mkBlock 0 (mkTable (fun _ => 0) 0 1000) ∅ in
  exists b', block_rel b ∅ /\ Z.of_nat (length [42; 43]) + 13 < two32 /\
    block_put b (iKey false 9) [42; 43] = (None, b') /\ bcount b' = 1.
Proof.
  intros b.
  assert (Hr : block_rel b ∅) by (apply block_rel_empty; cbn; lia).
  assert (Hl : Z.of_nat (length [42; 43]) + 13 < two32) by (unfold two32; cbn; lia).
  pose proof (block_put_keeps_records b _ ∅ (iKey false 9) [42; 43] Hr Hl eq_refl) as (_ & _ & _ & Hc).
  eexists. split; [exact Hr|]. split; [exact Hl|]. split; [reflexivity|].
  rewrite Hc. reflexivity.
Defined.

(** [tinyWrite] reads every record of a block back as written: for each
    key of [records], the bytes it appends to the log are the record
    after its length word. *)
Theorem tinyWrite_reads_records (b : Block) (abs : gmap (Z * Z) (list Z)) (k : Z * Z) (v : list Z) :
  block_rel b abs -> abs !! k = Some v ->
  exists off, brecords b !! k = Some off /\ tinyWrite_record (bdata b) off = Ret (Some v).
Proof.
  intros Hrel Hk. destruct (block_rel_read b abs k v Hrel Hk) as (off & Ho & _ & Hr).
  exists off. auto.
Qed.

Lemma tinyWrite_reads_records_witness :
  let b := mkBlock 0 (mkTable (fun _ => 0) 0 1000) ∅ in
  exists b', block_put b (iKey false 9) [42; 43] = (None, b') /\
    block_rel b' (<[(0, 9) := [0] ++ put_le 8 9 ++ [42; 43]]> ∅) /\
    exists off, brecords b' !! (0, 9) = Some off /\
      tinyWrite_record (bdata b') off = Ret (Some ([0] ++ put_le 8 9 ++ [42; 43])).
Proof.
  intros b.
  assert (Hr : block_rel b ∅) by (apply block_rel_empty; cbn; lia).
  assert (Hl : Z.of_nat (length [42; 43]) + 13 < two32) by (unfold two32; cbn; lia).
  pose proof (block_put_ok b _ ∅ (iKey false 9) [42; 43] Hr Hl eq_refl) as (Hr' & _).
  eexists. split; [reflexivity|]. split; [exact Hr'|].
  apply (tinyWrite_reads_records _ _ (0, 9) _ Hr'). apply lookup_insert_eq.
Defined.

(** What [tinyWrite] appends for a block record is the record body that
    [startRecover] decodes: a [put(iKey(false, key), data)] gives the body
    of [Put(key, data)], and [delete(key)] (a put of [iKey(true, key)]
    with the 8-byte TimeID) gives the body of [Delete(key)] with that
    TimeID. *)
Theorem tinyWrite_gives_record_body (b b' : Block) (abs : gmap (Z * Z) (list Z)) (key : Z) (o : kvop) :
  block_rel b abs -> op_key o = key ->
  Z.of_nat (length (record_body o)) + 4 < two32 ->
  block_put b (match o with KPut _ _ => iKey false key | KDelete _ _ => iKey true key end)
              (match o with KPut _ v => v | KDelete _ tid => put_le 8 (u64 tid) end) = (None, b') ->
  brecords b' !! (match o with KPut _ _ => iKey false key | KDelete _ _ => iKey true key end)
    = Some (tsize (bdata b)) /\
  tinyWrite_record (bdata b') (tsize (bdata b)) = Ret (Some (record_body o)).
Proof.
  intros Hrel Hkey Hlen Hput.
  assert (Hl : Z.of_nat (length (match o with KPut _ v => v | KDelete _ tid => put_le 8 (u64 tid) end))
               + 13 < two32).
  { destruct o; cbn [record_body length] in Hlen; rewrite length_app, ?length_put_le in Hlen;
      rewrite ?length_put_le; lia. }
  destruct (block_put_ok b b' abs _ _ Hrel Hl Hput) as (Hr' & _ & Ho & _).
  split; [exact Ho|].
  assert (Hv : (<[(match o with KPut _ _ => iKey false key | KDelete _ _ => iKey true key end)
                 := fst (match o with KPut _ _ => iKey false key | KDelete _ _ => iKey true key end)
                    :: put_le 8 (snd (match o with KPut _ _ => iKey false key | KDelete _ _ => iKey true key end))
                    ++ (match o with KPut _ v => v | KDelete _ tid => put_le 8 (u64 tid) end)]> abs)
               !! (match o with KPut _ _ => iKey false key | KDelete _ _ => iKey true key end)
               = Some (record_body o)).
  { rewrite lookup_insert_eq. destruct o; cbn in Hkey; subst; reflexivity. }
  destruct (block_rel_read b' _ _ _ Hr' Hv) as (off & Hoff & _ & Hread).
  rewrite Ho in Hoff. injection Hoff as <-. exact Hread.
Qed.

Lemma tinyWrite_gives_record_body_witness :
  let b := mkBlock 0 (mkTable (fun _ => 0) 0 1000) ∅ in
  exists b', block_put b (iKey true 9) (put_le 8 (u64 55)) = (None, b') /\
    tinyWrite_record (bdata b') 0 = Ret (Some (record_body (KDelete 9 55))).
Proof.
  intros b.
  assert (Hr : block_rel b ∅) by (apply block_rel_empty; cbn; lia).
  assert (Hl : Z.of_nat (length (record_body (KDelete 9 55))) + 4 < two32)
    by (unfold two32; vm_compute; reflexivity).
  eexists. split; [reflexivity|].
  apply (tinyWrite_gives_record_body b _ ∅ 9 (KDelete 9 55) Hr eq_refl Hl eq_refl).
Defined.

(** [move] reads back the TimeID of a deleted key: after a successful
    [delete(key)] with TimeID [timeID] in the block, the record that
    [records[iKey(true, key)]] points at is 21 bytes long and its bytes
    [13:21] decode to [timeID]. *)
Theorem move_reads_delete_timeID (b b' : Block) (abs : gmap (Z * Z) (list Z)) (key timeID : Z) :
  block_rel b abs -> - two63 <= timeID < two63 ->
  block_put b (iKey true key) (put_le 8 (u64 timeID)) = (None, b') ->
  brecords b' !! iKey true key = Some (tsize (bdata b)) /\
  move_timeID (bdata b') (tsize (bdata b)) = Ret timeID.
Proof.
  intros Hrel Ht Hput.
  assert (Hl : Z.of_nat (length (put_le 8 (u64 timeID))) + 13 < two32)
    by (rewrite length_put_le; unfold two32; cbn; lia).
  destruct (block_put_ok b b' abs _ _ Hrel Hl Hput) as (Hr' & _ & Ho & _).
  split; [exact Ho|].
  destruct (block_rel_read b' _ (iKey true key) _ Hr' (lookup_insert_eq _ _ _))
    as (off & Hoff & (H0 & Hsz & Hhd & Hdat) & _).
  rewrite Ho in Hoff. injection Hoff as <-.
  destruct Hr' as (Hcap & _).
  set (v := fst (iKey true key) :: put_le 8 (snd (iKey true key)) ++ put_le 8 (u64 timeID)) in *.
  assert (Hv : length v = 17%nat) by (unfold v; cbn [length]; rewrite length_app, !length_put_le; reflexivity).
  rewrite Hv in Hhd, Hdat, Hsz.
  unfold move_timeID, tbl_readRaw. cbv zeta.
  destruct (Z.ltb_spec (tcap (bdata b')) (tsize (bdata b) + 4)); [lia|].
  change (Z.to_nat 4) with 4%nat. rewrite Hhd, slice_0_4.
  change (get_le (put_le 4 (Z.of_nat 17 + 4))) with 21.
  destruct (Z.ltb_spec (tcap (bdata b')) (tsize (bdata b) + 21)); [lia|].
  change (Z.to_nat 21) with (4 + 17)%nat.
  rewrite addrs_app, map_app. change (Z.of_nat 4) with 4. rewrite Hhd, Hdat.
  change (21 =? 8 + 1 + 4 + 8) with true. cbv iota beta.
  unfold v. cbn [fst snd iKey].
  change (put_le 4 (Z.of_nat 17 + 4) ++ 1 :: put_le 8 key ++ put_le 8 (u64 timeID))
    with ((put_le 4 (Z.of_nat 17 + 4) ++ [1] ++ put_le 8 key) ++ put_le 8 (u64 timeID)).
  set (A := put_le 4 (Z.of_nat 17 + 4) ++ [1] ++ put_le 8 key).
  assert (HA : length A = 13%nat) by (unfold A; rewrite !length_app, !length_put_le; reflexivity).
  assert (Hs : slice 13 (4 + 17) (A ++ put_le 8 (u64 timeID)) = put_le 8 (u64 timeID)).
  { replace (4 + 17)%nat with (length A + 8)%nat by (rewrite HA; reflexivity).
    replace 13%nat with (length A + 0)%nat by (rewrite HA; reflexivity).
    rewrite slice_app_l.
    unfold slice. rewrite Nat.sub_0_r, drop_0, firstn_all2 by (rewrite length_put_le; lia).
    reflexivity. }
  rewrite Hs.
  assert (E : 2 ^ (8 * Z.of_nat 8) = two64) by reflexivity.
  rewrite get_put_le by (rewrite E; apply u64_range).
  rewrite int64_of_u64_u64 by exact Ht. reflexivity.
Qed.

Lemma move_reads_delete_timeID_witness :
  let b := mkBlock 0 (mkTable (fun _ => 0) 0 1000) ∅ in
  exists b', block_put b (iKey true 9) (put_le 8 (u64 (-3))) = (None, b') /\
    move_timeID (bdata b') 0 = Ret (-3).
Proof.
  intros b.
  assert (Hr : block_rel b ∅) by (apply block_rel_empty; cbn; lia).
  eexists. split; [reflexivity|].
  apply (move_reads_delete_timeID b _ ∅ 9 (-3) Hr ltac:(unfold two63; lia) eq_refl).
Defined.

End BlockProps.

(* ------------------------------------------------------------------ *)
(** ** [setEntry]: topic parsing and the source of the sequence *)

Section SetEntryMore.
Import SetEntry.

(** Where [setEntry] takes the sequence from and what it does to the DB:
    a caller-supplied ID gives its own sequence and leaves the DB as it
    is; otherwise the lease is asked with the entry's (parsed) topic
    hash, and a slot it hands out gives the sequence without advancing
    the counter, the lease becoming what [getSlot] leaves; when it has
    none, the counter is advanced by one (modulo 2^64), its new value is
    the sequence and the lease is unchanged. *)
Theorem setEntry_sequence_source (getSlot : list leaseSlot -> Z -> bool * Z * list leaseSlot)
    (mc : Z) (parse : option (Z * Z)) (db db' : DBState) (e e' : Entry) :
  setEntry getSlot mc parse db e = Ret (e', db') ->
  e_ID e' = e_ID e /\
  match e_ID e with
  | Some s => e_seq e' = s /\ db' = db
  | None =>
      match getSlot (lease db) (e_topicHash e') with
      | (true, s, l') => e_seq e' = s /\ db' = mkDBState (sequence db) l'
      | (false, _, _) =>
          e_seq e' = u64 (sequence db + 1) /\ db' = mkDBState (u64 (sequence db + 1)) (lease db)
      end
  end.
Proof.
  intros H. unfold setEntry in H. destruct db as [sq ls].
  destruct (e_parsed e); [|destruct parse as [[h ttl]|]; [|discriminate]]; cbn [e_ID e_topicHash] in H.
  all: destruct (e_ID e) as [s|].
  all: try (destruct (s =? 0); [discriminate|]; injection H as <- <-; cbn; auto; fail).
  all: destruct (getSlot _ _) as [[[|] s] l'] eqn:Hg.
  all: cbv beta iota zeta in H; unfold nextSeq in H; cbn [sequence lease fst snd] in H.
  all: match type of H with
       | (if ?c then _ else _) = _ => destruct c; [discriminate|]
       end.
  all: injection H as <- <-; cbn [e_ID e_topicHash e_seq lease sequence] in *; rewrite Hg; auto.
Qed.

Lemma setEntry_sequence_source_witness :
  let db := mkDBState 41 [] in
  let e := mkEntry None true 0 7 0 0 0 in
  exists e' db', setEntry getSlot_head 1 None db e = Ret (e', db') /\ e_seq e' = 42 /\ sequence db' = 42.
Proof.
  intros db e.
  pose proof (setEntry_sequence_source getSlot_head 1 None db _ e _ eq_refl) as [_ Hs].
  destruct Hs as [Hq Hd]. apply (f_equal sequence) in Hd.
  do 2 eexists. split; [reflexivity|]. split; [exact Hq|exact Hd].
Defined.

(** The topic handling of [setEntry]: an entry already parsed is not
    parsed again (the result does not depend on [parseTopic]); for an
    unparsed entry a [parseTopic] error is returned, and otherwise the
    entry gets the topic hash, the master contract when its contract is 0,
    the topic TTL as [ExpiresAt] when it had none and the TTL is
    positive, and [expiresAt = ExpiresAt]; this holds whatever [getSlot]
    answers. *)
Theorem setEntry_topic_parsing (getSlot : list leaseSlot -> Z -> bool * Z * list leaseSlot)
    (mc : Z) (db : DBState) (e : Entry) :
  (e_parsed e = true -> forall p1 p2, setEntry getSlot mc p1 db e = setEntry getSlot mc p2 db e) /\
  (e_parsed e = false -> setEntry getSlot mc None db e = Fail errBadRequest) /\
  (forall h ttl e' db', e_parsed e = false -> setEntry getSlot mc (Some (h, ttl)) db e = Ret (e', db') ->
     e_parsed e' = true /\ e_topicHash e' = h /\
     e_Contract e' = (if e_Contract e =? 0 then mc else e_Contract e) /\
     e_ExpiresAt e' = (if (e_ExpiresAt e =? 0) && (0 <? ttl) then ttl else e_ExpiresAt e) /\
     e_expiresAt e' = e_ExpiresAt e').
Proof.
  split; [|split].
  - intros Hp p1 p2. unfold setEntry. rewrite Hp. reflexivity.
  - intros Hp. unfold setEntry. rewrite Hp. reflexivity.
  - intros h ttl e' db' Hp H. unfold setEntry in H. rewrite Hp in H. cbn [e_ID e_topicHash] in H.
    destruct db as [sq ls].
    destruct (e_ID e) as [s|].
    + cbn in H. destruct (_ =? 0); [discriminate|]. injection H as <- _; cbn; auto.
    + destruct (getSlot _ _) as [[[|] s] l']; cbn in H; destruct (_ =? 0); try discriminate;
        injection H as <- _; cbn; auto.
Qed.

Lemma setEntry_topic_parsing_witness :
  let e := mkEntry (Some 9) false 0 0 0 0 0 in
  exists e' db', setEntry getSlot_head 1 (Some (77, 3600)) (mkDBState 0 []) e = Ret (e', db') /\
    e_Contract e' = 1 /\ e_ExpiresAt e' = 3600 /\ e_topicHash e' = 77.
Proof.
  intros e.
  pose proof (proj2 (proj2 (setEntry_topic_parsing getSlot_head 1 (mkDBState 0 []) e)) 77 3600 _ _
                eq_refl eq_refl) as (_ & Hh & Hc & Hx & _).
  do 2 eexists. split; [reflexivity|]. rewrite Hc, Hx, Hh. cbn. auto.
Defined.

End SetEntryMore.

(* ------------------------------------------------------------------ *)
(** ** [readEntry] on an index block that holds the sequence *)

Section ReadEntryMore.
Import Index.

(** When the memdb probe misses without error, [readEntry] returns the
    first slot of the index block of [startBlockIndex seq] that carries
    [seq], provided it is among the block's first 255 entries. *)
Theorem readEntry_returns_first_match (c : Collab) (cacheID topicHash seq : Z)
    (pre post : list slot) (s : slot) :
  memGet c (startBlockIndex seq) (Z.lxor cacheID seq) = (None, false) ->
  readBlock c (startBlockIndex seq) = Some (pre ++ s :: post) ->
  (length pre < entriesPerIndexBlock)%nat ->
  Forall (fun x => s_seq x <> seq) pre -> s_seq s = seq ->
  readEntry c cacheID topicHash seq = Ret s.
Proof.
  intros Hm Hb Hl Hpre Hs. unfold readEntry. rewrite Hm, Hb.
  rewrite firstn_app. replace (entriesPerIndexBlock - length pre)%nat
    with (S (entriesPerIndexBlock - length pre - 1)) by lia.
  rewrite firstn_all2 by lia. cbn [firstn].
  assert (Hf : forall rest, List.find (fun x => s_seq x =? seq) (pre ++ s :: rest) = Some s).
  { intros rest. clear -Hpre Hs. induction Hpre as [|x pre Hx _ IH]; cbn [List.find app].
    - rewrite Hs, Z.eqb_refl. reflexivity.
    - destruct (Z.eqb_spec (s_seq x) seq); [contradiction|exact IH]. }
  rewrite Hf. reflexivity.
Qed.

Lemma readEntry_returns_first_match_witness :
  let hit := mkSlot 300 4 10 512 0 [] in
  let c := mkCollab (fun _ _ => (None, false))
                    (fun _ => Some [mkSlot 256 1 1 0 0 []; hit; mkSlot 300 9 9 0 0 []]) 28
                    (fun _ => (0, 0, 0)) in
  readEntry c 0 0 300 = Ret hit.
Proof.
  intros hit c.
  apply (readEntry_returns_first_match c 0 0 300 [mkSlot 256 1 1 0 0 []] [mkSlot 300 9 9 0 0 []] hit);
    [reflexivity|reflexivity|unfold entriesPerIndexBlock; cbn; lia| |reflexivity].
  constructor; [cbn; lia|constructor].
Defined.

End ReadEntryMore.


(* ------------------------------------------------------------------ *)
(** ** [startRecover] when the WAL fits in one buffer window *)

Section RecoveryWindow.
Import WalHeader WalFile WalReader Recovery.

Lemma freeSize_newSegments (x : Z) : freeSize newSegments x = 0.
Proof. unfold freeSize, newSegments; cbn. repeat destruct (_ =? _); reflexivity. Qed.

Lemma length_MarshalBinary (l : LogInfo) : length (MarshalBinary l) = 28%nat.
Proof. unfold MarshalBinary. rewrite !length_app, !length_put_le. reflexivity. Qed.

Lemma layout_written (gs : list (list kvop)) :
  forall tid off, length (layout tid off gs).1 = length gs /\
                  Forall (fun l => status l = logStatusWritten) (layout tid off gs).1.
Proof.
  induction gs as [|g gs IH]; intros tid off; [split; [reflexivity|constructor]|].
  cbn [layout]. destruct (layout (tid + 1) _ gs) as [ls bs] eqn:HL.
  destruct (IH (tid + 1) (off + size (group_info tid off g))) as [IH1 IH2].
  rewrite HL in IH1, IH2. cbn [fst length] in *. split; [lia|]. constructor; [reflexivity|exact IH2].
Qed.

Lemma drop_released_written (ls : list LogInfo) :
  Forall (fun l => status l = logStatusWritten) ls -> drop_released ls = ls.
Proof.
  unfold drop_released. induction 1 as [|l ls Hl _ IH]; [reflexivity|].
  cbn [List.filter]. rewrite Hl. cbn. rewrite IH. reflexivity.
Qed.

Lemma bufSlice_mid (pre a b rest : list Z) :
  bufSlice (pre ++ a ++ b ++ rest) (Z.of_nat (length pre + length a))
           (Z.of_nat (length pre + length a + length b)) = Some b.
Proof.
  unfold bufSlice. rewrite !length_app.
  destruct (Z.leb_spec 0 (Z.of_nat (length pre + length a))); [|lia].
  destruct (Z.leb_spec (Z.of_nat (length pre + length a)) (Z.of_nat (length pre + length a + length b))); [|lia].
  destruct (Z.leb_spec (Z.of_nat (length pre + length a + length b))
                       (Z.of_nat (length pre + (length a + (length b + length rest))))); [|lia].
  cbn [andb]. rewrite !Nat2Z.id. f_equal.
  replace (length pre + length a + length b)%nat with (length pre + (length a + length b))%nat by lia.
  rewrite slice_app_l.
  replace (length a) with (length a + 0)%nat at 1 by lia.
  rewrite slice_app_l. apply slice_app_head.
Qed.

(** The inner loop of [Read] over a window holding the groups [gs] at
    window offset [length pre], with every group replayed by the
    callback of [startRecover]. *)
Lemma inner_window (gs : list (list kvop)) :
  forall (tid off : Z) (pre post : list Z) (prefix : list LogInfo) (st : RS)
         (log : gmap Z (list Z)) (fileOff : Z),
  Forall wf_group gs ->
  0 <= off ->
  recoveredLogs (rs_wal st) = prefix ++ (layout tid off gs).1 ->
  segments (logFile (rs_wal st)) = newSegments ->
  rs_user st = Some log ->
  Z.of_nat (length (pre ++ (layout tid off gs).2 ++ post)) < two63 ->
  exists st',
    inner recover_f io_ok (length gs) (length prefix) (length prefix) (Z.of_nat (length pre))
          (Z.of_nat (length (pre ++ (layout tid off gs).2 ++ post))) fileOff
          (pre ++ (layout tid off gs).2 ++ post) st
      = IEnd (length prefix + length gs) st' /\
    rs_user st' = Some (fold_left direct_step (concat gs) log).
Proof.
  induction gs as [|g gs IH]; intros tid off pre post prefix st log fileOff Hwf Hoff Hls Hseg Hu Hlen.
  - exists st. split; [rewrite Nat.add_0_r; reflexivity | exact Hu].
  - inversion Hwf as [|? ? [Hk Hsz] Hwfs]; subst.
    cbn [layout] in *.
    destruct (layout (tid + 1) (off + size (group_info tid off g)) gs) as [ls bs] eqn:HL.
    cbn [fst snd] in *.
    cbn [length inner]. rewrite Hls, nth_error_app2, Nat.sub_diag by lia. cbn [nth_error].
    rewrite Hseg, freeSize_newSegments, Z.add_0_r.
    assert (Ht : 0 < two63) by reflexivity.
    set (l := group_info tid off g) in *.
    set (MB := MarshalBinary l) in *.
    assert (HMB : length MB = 28%nat) by apply length_MarshalBinary.
    assert (Hsize : size l = Z.of_nat (length MB + length (group_body g)))
      by (rewrite HMB; reflexivity).
    rewrite <- !app_assoc in *.
    assert (HN : Z.of_nat (length (pre ++ MB ++ group_body g ++ bs ++ post)) =
                 Z.of_nat (length pre) + Z.of_nat (length MB) + Z.of_nat (length (group_body g))
                 + Z.of_nat (length bs) + Z.of_nat (length post))
      by (rewrite !length_app; lia).
    rewrite HN in Hlen.
    assert (Hnext : wrap64 (wrap64 (Z.of_nat (length pre) + size l)) =
                    Z.of_nat (length (pre ++ MB ++ group_body g)))
      by (rewrite Hsize, !length_app, (wrap64_small (_ + _)) by lia;
          rewrite wrap64_small by lia; lia).
    rewrite Hnext.
    change (entryCount l) with (Z.of_nat (length g)).
    change (status l) with logStatusWritten. rewrite Z.eqb_refl. cbn [negb].
    assert (Hcat : fold_left direct_step (concat (g :: gs)) log =
                   fold_left direct_step (concat gs) (fold_left direct_step g log))
      by (cbn [concat]; apply fold_left_app).
    rewrite Hcat.
    replace (length prefix + S (length gs))%nat with (S (length prefix) + length gs)%nat by lia.
    destruct (Z.eqb_spec (Z.of_nat (length g)) 0) as [H0|H0]; cbn [orb].
    + (* an empty group is skipped *)
      assert (Hg : g = []) by (apply length_zero_iff_nil; lia). subst g.
      edestruct (IH (tid + 1) (off + size l) (pre ++ MB ++ group_body []) post (prefix ++ [l])
                    st log fileOff Hwfs) as [st' [Hi Hu']].
      * rewrite Hsize. lia.
      * rewrite HL. cbn [fst]. rewrite Hls, <- app_assoc. reflexivity.
      * exact Hseg.
      * exact Hu.
      * rewrite HL. cbn [snd]. rewrite <- !app_assoc, !length_app. lia.
      * rewrite HL in Hi. cbn [snd] in Hi. rewrite <- !app_assoc in Hi.
        replace (length (prefix ++ [l])) with (S (length prefix)) in Hi
          by (rewrite length_app; cbn; lia).
        exists st'. split; [exact Hi | exact Hu'].
    + (* a WRITTEN group with records is replayed and marked RELEASED *)
      rewrite HN, Hsize.
      destruct (Z.ltb_spec (Z.of_nat (length pre) + Z.of_nat (length MB) + Z.of_nat (length (group_body g))
                 + Z.of_nat (length bs) + Z.of_nat (length post)) (Z.of_nat (length MB + length (group_body g))));
        [lia|].
      destruct (Z.ltb_spec (Z.of_nat (length pre) + Z.of_nat (length MB) + Z.of_nat (length (group_body g))
                 + Z.of_nat (length bs) + Z.of_nat (length post) - Z.of_nat (length pre))
                 (Z.of_nat (length MB + length (group_body g)))); [lia|].
      replace (Z.of_nat (length pre) + Z.of_nat logHeaderSize) with (Z.of_nat (length pre + length MB))
        by (rewrite HMB; unfold logHeaderSize; lia).
      replace (Z.of_nat (length pre) + Z.of_nat (length MB + length (group_body g)))
        with (Z.of_nat (length pre + length MB + length (group_body g))) by lia.
      rewrite bufSlice_mid.
      rewrite Hu. cbn [recover_f]. unfold recover_cb. cbn [rentryCount]. rewrite !Nat2Z.id.
      destruct (recover_loop_group g [] (drop (length pre + length MB + length (group_body g))
                  (pre ++ MB ++ group_body g ++ bs ++ post)) log Hk) as [r' Hr]; [cbn; lia|].
      change ([] ++ group_body g) with (group_body g) in Hr.
      change (Z.of_nat (length (@nil Z))) with 0 in Hr.
      rewrite Hr. cbn [orb].
      unfold writeMarshalableAt. cbn [io_ok write_ok offset set_status andb].
      change (offset l) with off.
      destruct (Z.leb_spec 0 off); [|lia]. cbn [andb].
      rewrite <- HN.
      set (st2 := {| rs_wal := set_fileData _ _; rs_reader := r'; rs_user := _ |}).
      edestruct (IH (tid + 1) (off + size l) (pre ++ MB ++ group_body g) post
                    (prefix ++ [set_status l logStatusReleased]) st2 (fold_left direct_step g log)
                    fileOff Hwfs) as [st' [Hi Hu']].
      * rewrite Hsize. lia.
      * rewrite HL. cbn [fst st2 rs_wal set_fileData set_recoveredLogs recoveredLogs].
        pose proof (insert_app_r prefix (l :: ls) 0 (set_status l logStatusReleased)) as E.
        rewrite Nat.add_0_r in E. rewrite E, <- app_assoc. reflexivity.
      * exact Hseg.
      * reflexivity.
      * rewrite HL. cbn [snd]. rewrite <- !app_assoc, !length_app. lia.
      * rewrite HL in Hi. cbn [snd] in Hi. rewrite <- !app_assoc in Hi.
        replace (length (prefix ++ [set_status l logStatusReleased])) with (S (length prefix)) in Hi
          by (rewrite length_app; cbn; lia).
        exists st'. split; [exact Hi | exact Hu'].
Qed.
Lemma layout_first_offset (gs : list (list kvop)) (tid off : Z) (l0 : LogInfo) (ls : list LogInfo) :
  (layout tid off gs).1 = l0 :: ls -> WalHeader.offset l0 = off.
Proof.
  destruct gs as [|g gs]; cbn [layout]; [discriminate|].
  destruct (layout (tid + 1) _ gs). cbn [fst]. intros H. injection H as <- _. reflexivity.
Qed.

Lemma length_file_header :
  length (WalFileHeader.Header_MarshalBinary
            (WalFileHeader.mkHeader WalFileHeader.signature0 1 newSegments)) = 47%nat.
Proof. vm_compute. reflexivity. Qed.

(** X18: when the whole log (the groups after the 47-byte file header)
    fits in one buffer window, [startRecover] replays every group through
    the real [Reader.Read] and its callback and rebuilds exactly the memdb
    of the direct execution of all the staged writes, in order. *)
Theorem startRecover_single_window (gs : list (list kvop)) (targetSize bufferSize : Z) (fuel : nat) :
  Forall wf_group gs ->
  headerSize + Z.of_nat (length (layout 1 headerSize gs).2) < two63 ->
  Z.of_nat (length (layout 1 headerSize gs).2) <= bufferSize ->
  (0 < fuel)%nat ->
  startRecover io_ok fuel (wal_of targetSize bufferSize gs) = Some (direct (concat gs)).
Proof.
  intros Hwf Hsz Hbuf Hfuel.
  destruct (layout_written gs 1 headerSize) as [Hn Hw].
  pose proof (layout_first_offset gs 1 headerSize) as Hoff.
  pose proof (inner_window gs 1 headerSize [] [] []) as HI. cbn [app length] in HI.
  unfold startRecover, Read, wal_of.
  destruct (layout 1 headerSize gs) as [ls bytes] eqn:HL. cbn [fst snd] in *.
  cbn [rs_wal recoveredLogs set_recoveredLogs rs_reader rs_user].
  rewrite (drop_released_written ls Hw).
  unfold set_recoveredLogs. cbn [WalReader.bufferSize logFile fsize recoveredLogs fileData rs_wal].
  destruct ls as [|l0 ls'].
  - destruct gs; [|discriminate]. cbn. rewrite put_all_empty. reflexivity.
  - rewrite (Hoff l0 ls' eq_refl).
    replace (headerSize + Z.of_nat (length bytes) - headerSize) with (Z.of_nat (length bytes)) by lia.
    destruct (Z.ltb_spec bufferSize (Z.of_nat (length bytes))); [lia|].
    destruct fuel as [|fuel]; [lia|].
    cbn [outer rs_wal set_recoveredLogs recoveredLogs fileData io_ok extend_ok negb].
    unfold readAt. rewrite length_app, length_file_header.
    destruct (Z.ltb_spec headerSize 0); [discriminate|].
    destruct (Z.ltb_spec (Z.of_nat (length bytes)) 0); [lia|].
    destruct (Z.ltb_spec (Z.of_nat (47 + length bytes)) (headerSize + Z.of_nat (length bytes))); [unfold headerSize in *; lia|].
    cbn [orb].
    replace (slice (Z.to_nat headerSize) (Z.to_nat (headerSize + Z.of_nat (length bytes))) _) with bytes.
    2:{ replace (Z.to_nat headerSize) with (length (WalFileHeader.Header_MarshalBinary
            (WalFileHeader.mkHeader WalFileHeader.signature0 1 newSegments)) + 0)%nat
          by (rewrite length_file_header; reflexivity).
        replace (Z.to_nat (headerSize + Z.of_nat (length bytes))) with
          (length (WalFileHeader.Header_MarshalBinary
            (WalFileHeader.mkHeader WalFileHeader.signature0 1 newSegments)) + length bytes)%nat
          by (rewrite length_file_header; unfold headerSize; lia).
        rewrite slice_app_l. unfold slice. rewrite drop_0, Nat.sub_0_r, firstn_all. reflexivity. }
    cbn [fst snd] in HI. rewrite !app_nil_r in HI.
    match goal with
    | |- context [inner _ _ _ _ _ _ _ _ _ ?st0] =>
        destruct (HI st0 ∅ headerSize Hwf) as [st' [Hi Hu']];
          [unfold headerSize; lia|reflexivity|reflexivity|reflexivity|lia|]
    end.
    change (Z.of_nat 0) with 0 in Hi. rewrite Nat.sub_0_r, Hn, Hi. cbn [Nat.add].
    rewrite <- Hn, Nat.eqb_refl. cbn [io_ok header_ok read_defer rs_user]. rewrite Hu'.
    rewrite put_all_empty. reflexivity.
Qed.
Lemma startRecover_single_window_witness :
  startRecover io_ok 1 (wal_of 0 1000 [[KPut 1 [10]; KDelete 1 7]; [KPut 2 [20]]]) =
  Some (direct (concat [[KPut 1 [10]; KDelete 1 7]; [KPut 2 [20]]])).
Proof.
  apply startRecover_single_window.
  - repeat constructor; unfold two64, two32; cbn; lia.
  - vm_compute. reflexivity.
  - vm_compute. congruence.
  - lia.
Defined.

End RecoveryWindow.
